(** * botkit-storage-mongo: the dot-path flattener, the zone stores and the
      history extension of [src/index.js], embedded in Rocq.

    JavaScript values are a small inductive type, objects are the lists of
    their own enumerable properties in the order [Object.keys] enumerates
    them, exceptions are an explicit [result] type, and the monk collection
    the stores talk to is a list of documents with the operations the code
    calls on it. *)

From Stdlib Require Import List String Ascii ZArith NArith Bool Arith Lia.
From Stdlib Require Import DecimalString.
From Stdlib Require DecimalNat DecimalFacts.
From Stdlib Require Import Permutation Sorted.
Import ListNotations.
Open Scope string_scope.

(* ================================================================== *)
(** * JavaScript values *)
(* ================================================================== *)

Module Js.

Unset Elimination Schemes.

(** [VObj] is a plain object (created by a literal or [Object]); [VInst] is
    any other non-array object (a [Date], a class instance, ...) with the
    name of its constructor and its own enumerable properties.  Numbers are
    the integers, which is what ids and [Date.now()] are. *)
Inductive value : Type :=
| VUndef
| VNull
| VBool (b : bool)
| VNum (n : Z)
| VStr (s : string)
| VFun
| VArr (elems : list value)
| VObj (props : list (string * value))
| VInst (ctor : string) (props : list (string * value)).

Set Elimination Schemes.

Definition object := list (string * value).

(** Thrown exceptions: [new Error(msg)] and the engine's [TypeError]. *)
Inductive exn : Type :=
| JsError (msg : string)
| JsTypeError (msg : string).

(** How a piece of code ends: with a value, with an exception, or [Beyond]
    what the values here describe: the run goes on in code or through a
    prototype object that [value] does not carry (a function given in the
    input is called, the prototype of an object is replaced). *)
Inductive result (A : Type) : Type :=
| Ok (a : A)
| Throw (e : exn)
| Beyond.
Arguments Ok {A} a.
Arguments Throw {A} e.
Arguments Beyond {A}.

Definition bind {A B} (r : result A) (k : A -> result B) : result B :=
  match r with
  | Ok a => k a
  | Throw e => Throw e
  | Beyond => Beyond
  end.

Notation "x <- r ;; k" := (bind r (fun x => k))
  (at level 61, r at next level, right associativity).

(** Induction over values that reaches the elements of arrays and the
    property values of objects. *)
Section ValueInd.
Variable P : value -> Prop.
Hypothesis Hundef : P VUndef.
Hypothesis Hnull : P VNull.
Hypothesis Hbool : forall b, P (VBool b).
Hypothesis Hnum : forall n, P (VNum n).
Hypothesis Hstr : forall s, P (VStr s).
Hypothesis Hfun : P VFun.
Hypothesis Harr : forall l, Forall P l -> P (VArr l).
Hypothesis Hobj : forall o, Forall (fun kv => P (snd kv)) o -> P (VObj o).
Hypothesis Hinst :
  forall c o, Forall (fun kv => P (snd kv)) o -> P (VInst c o).

Fixpoint value_ind (v : value) : P v :=
  let props :=
    fix props (o : object) : Forall (fun kv => P (snd kv)) o :=
      match o with
      | [] => Forall_nil _
      | kv :: o' => Forall_cons kv (value_ind (snd kv)) (props o')
      end in
  match v with
  | VUndef => Hundef
  | VNull => Hnull
  | VBool b => Hbool b
  | VNum n => Hnum n
  | VStr s => Hstr s
  | VFun => Hfun
  | VArr l =>
      Harr l ((fix elems (l : list value) : Forall P l :=
                 match l with
                 | [] => Forall_nil _
                 | x :: l' => Forall_cons x (value_ind x) (elems l')
                 end) l)
  | VObj o => Hobj o (props o)
  | VInst c o => Hinst c o (props o)
  end.
End ValueInd.

(** [typeof v] *)
Definition typeof (v : value) : string :=
  match v with
  | VUndef => "undefined"
  | VNull => "object"
  | VBool _ => "boolean"
  | VNum _ => "number"
  | VStr _ => "string"
  | VFun => "function"
  | VArr _ | VObj _ | VInst _ _ => "object"
  end.

(** Truthiness, as [!v] and [v && ...] test it. *)
Definition truthy (v : value) : bool :=
  match v with
  | VUndef | VNull => false
  | VBool b => b
  | VNum n => negb (n =? 0)%Z
  | VStr s => negb (s =? "")
  | _ => true
  end.

(** lodash's [_.isPlainObject]. *)
Definition isPlainObject (v : value) : bool :=
  match v with
  | VObj _ => true
  | _ => false
  end.

(** ** Own properties

    An object is the list of its own enumerable properties with string
    names, in the order [Object.keys] enumerates them: the names that are
    array indices first, in ascending order, then the other names in the
    order in which they were created. *)

Fixpoint obj_get (o : object) (k : string) : option value :=
  match o with
  | [] => None
  | (k', v) :: o' => if k' =? k then Some v else obj_get o' k
  end.

Definition has_own (o : object) (k : string) : bool :=
  match obj_get o k with
  | Some _ => true
  | None => false
  end.

Definition keys (o : object) : list string := map fst o.

(** The array index a property name is: the canonical decimal numeral of an
    integer below [2^32 - 1]. *)
Definition array_index (k : string) : option N :=
  match NilEmpty.uint_of_string k with
  | Some u =>
      let n := N.of_uint u in
      if (NilEmpty.string_of_uint (N.to_uint n) =? k) && (n <? 4294967295)%N
      then Some n else None
  | None => None
  end.

(** Whether a new property [k] is enumerated before the existing one [k']:
    an array index comes before every larger index and every other name. *)
Definition index_before (k k' : string) : bool :=
  match array_index k, array_index k' with
  | Some n, Some n' => (n <? n')%N
  | Some _, None => true
  | None, _ => false
  end.

(** Writing an own property that exists: it keeps its place. *)
Fixpoint obj_replace (o : object) (k : string) (v : value) : object :=
  match o with
  | [] => []
  | (k', v') :: o' =>
      if k' =? k then (k, v) :: o' else (k', v') :: obj_replace o' k v
  end.

(** Creating an own property: an array index goes to its place among the
    indices, any other name goes last. *)
Fixpoint obj_add (o : object) (k : string) (v : value) : object :=
  match o with
  | [] => [(k, v)]
  | (k', v') :: o' =>
      if index_before k k' then (k, v) :: (k', v') :: o'
      else (k', v') :: obj_add o' k v
  end.

(** Defining the own data property [k] of [o] as [v]. *)
Definition obj_set (o : object) (k : string) (v : value) : object :=
  if has_own o k then obj_replace o k v else obj_add o k v.

(** The assignment [o[k] = v] on an object made by [{}] that has only been
    assigned to: it runs the setter [__proto__] of [Object.prototype] when
    that is the name, which ignores a [v] that is no object and otherwise
    replaces the prototype of [o] ([Beyond]: what later assignments do then
    depends on that prototype); under every other name it defines the own
    property. *)
Definition js_set (o : object) (k : string) (v : value) : result object :=
  if k =? "__proto__" then
    match v with
    | VUndef | VBool _ | VNum _ | VStr _ => Ok o
    | _ => Beyond
    end
  else Ok (obj_set o k v).

(** [Object.assign(target, src)]: the own properties of [src] are assigned
    to [target] one after the other. *)
Fixpoint obj_assign (target src : object) : result object :=
  match src with
  | [] => Ok target
  | (k, v) :: src' => t <- js_set target k v ;; obj_assign t src'
  end.

(** Decimal numeral of an array index. *)
Definition index_key (i : nat) : string :=
  NilEmpty.string_of_uint (Nat.to_uint i).

(** The index a property name denotes, when it is the canonical numeral of
    one. *)
Definition key_index (k : string) : option nat :=
  match NilEmpty.uint_of_string k with
  | Some u => let i := Nat.of_uint u in
              if index_key i =? k then Some i else None
  | None => None
  end.

(** Own enumerable properties of an array: its indices, in order. *)
Fixpoint arr_props (i : nat) (l : list value) : object :=
  match l with
  | [] => []
  | x :: l' => (index_key i, x) :: arr_props (S i) l'
  end.

(** [v[k]] for a [v] that is neither [null] nor [undefined]; a missing
    property reads as [undefined]. *)
Definition prop (v : value) (k : string) : value :=
  match v with
  | VObj o | VInst _ o =>
      match obj_get o k with Some x => x | None => VUndef end
  | VArr l =>
      if k =? "length" then VNum (Z.of_nat (List.length l))
      else match key_index k with
           | Some i => nth i l VUndef
           | None => VUndef
           end
  | VStr s => if k =? "length" then VNum (Z.of_nat (String.length s))
              else VUndef
  | _ => VUndef
  end.

(** [v.k] as an expression: reading a property of [null] or [undefined]
    throws. *)
Definition get_prop (v : value) (k : string) : result value :=
  match v with
  | VUndef | VNull =>
      Throw (JsTypeError "Cannot read properties of undefined or null")
  | _ => Ok (prop v k)
  end.

(** Structural equality of values. *)
Fixpoint value_eqb (a b : value) {struct a} : bool :=
  match a, b with
  | VUndef, VUndef => true
  | VNull, VNull => true
  | VBool x, VBool y => Bool.eqb x y
  | VNum x, VNum y => (x =? y)%Z
  | VStr x, VStr y => x =? y
  | VFun, VFun => true
  | VArr l, VArr m =>
      (fix all (l m : list value) : bool :=
         match l, m with
         | [], [] => true
         | x :: l', y :: m' => value_eqb x y && all l' m'
         | _, _ => false
         end) l m
  | VObj o, VObj p =>
      (fix all (o p : object) : bool :=
         match o, p with
         | [], [] => true
         | (k, x) :: o', (k', y) :: p' =>
             (k =? k') && value_eqb x y && all o' p'
         | _, _ => false
         end) o p
  | VInst c o, VInst d p =>
      (c =? d) &&
      (fix all (o p : object) : bool :=
         match o, p with
         | [], [] => true
         | (k, x) :: o', (k', y) :: p' =>
             (k =? k') && value_eqb x y && all o' p'
         | _, _ => false
         end) o p
  | _, _ => false
  end.

End Js.
Import Js.

(* ================================================================== *)
(** * toDot: the dot-path flattener *)
(* ================================================================== *)

Definition invalid_object : exn := JsError "toDot requires a valid object".
Definition keys_of_null : exn :=
  JsTypeError "Cannot convert undefined or null to object".

(** [toDot(obj, div, pre)].  [pre] is [None] when the argument is absent
    ([undefined], or [null]); the default of [div] is supplied by the
    caller, see [toDot1].  The loop over [Object.keys(obj)] runs over the
    properties in order, [iteration] being the object under construction. *)
Fixpoint toDot (obj : value) (div : string) (pre : option string)
  {struct obj} : result object :=
  if negb (typeof obj =? "object") then Throw invalid_object
  else
    let pre := match pre with
               | Some p => p ++ div
               | None => ""
               end in
    let each :=
      fix each (ps : object) (iteration : object) : result object :=
        match ps with
        | [] => Ok iteration
        | (key, x) :: ps' =>
            if isPlainObject x then
              r <- toDot x div (Some (pre ++ key)) ;;
              it <- obj_assign iteration r ;;
              each ps' it
            else it <- js_set iteration (pre ++ key) x ;; each ps' it
        end in
    match obj with
    | VObj ps | VInst _ ps => each ps []
    | VArr l =>
        (fix each_elem (i : nat) (l : list value) (iteration : object)
           : result object :=
           match l with
           | [] => Ok iteration
           | x :: l' =>
               if isPlainObject x then
                 r <- toDot x div (Some (pre ++ index_key i)) ;;
                 it <- obj_assign iteration r ;;
                 each_elem (S i) l' it
               else it <- js_set iteration (pre ++ index_key i) x ;;
                    each_elem (S i) l' it
           end) 0 l []
    | _ => Throw keys_of_null
    end.

(** The call [toDot(data)]: [div] takes its default ['.'], [pre] is absent. *)
Definition toDot1 (data : value) : result object := toDot data "." None.

(** The loop bodies of [toDot] as functions of their own, for reasoning:
    [each_prop] is the [forEach] callback run over the properties [ps] of a
    plain or non-plain object, [each_elem] over the elements of an array
    from index [i] on. *)
Fixpoint each_prop (div pre : string) (ps : object) (iteration : object)
  : result object :=
  match ps with
  | [] => Ok iteration
  | (key, x) :: ps' =>
      if isPlainObject x then
        r <- toDot x div (Some (pre ++ key)) ;;
        it <- obj_assign iteration r ;;
        each_prop div pre ps' it
      else it <- js_set iteration (pre ++ key) x ;; each_prop div pre ps' it
  end.

Fixpoint each_elem (div pre : string) (i : nat) (l : list value)
  (iteration : object) : result object :=
  match l with
  | [] => Ok iteration
  | x :: l' =>
      if isPlainObject x then
        r <- toDot x div (Some (pre ++ index_key i)) ;;
        it <- obj_assign iteration r ;;
        each_elem div pre (S i) l' it
      else it <- js_set iteration (pre ++ index_key i) x ;;
           each_elem div pre (S i) l' it
  end.

(** The string [toDot] puts in front of every key. *)
Definition key_prefix (div : string) (pre : option string) : string :=
  match pre with
  | Some p => p ++ div
  | None => ""
  end.

(** The accumulated key path handed to the recursive call for key [k]. *)
Definition accumulated (div : string) (pre : option string) (k : string)
  : string :=
  match pre with
  | Some p => p ++ div ++ k
  | None => k
  end.

(** ** The flattening as the specification words it

    A leaf of a mapping is a value that is not a plain nested mapping; it is
    reached by a chain of keys.  The flat mapping assigns every leaf under
    the chain joined by the separator, behind [prefix + separator] when a
    prefix is given. *)
Fixpoint leaves (v : value) : list (list string * value) :=
  match v with
  | VObj ps =>
      (fix props (ps : object) : list (list string * value) :=
         match ps with
         | [] => []
         | (key, x) :: ps' =>
             (map (fun cv => (key :: fst cv, snd cv)) (leaves x)
                ++ props ps')%list
         end) ps
  | _ => [([], v)]
  end.

(** The chains of keys to the leaves of the mapping [ps], with the leaves. *)
Definition leaf_paths (ps : object) : list (list string * value) :=
  leaves (VObj ps).

(** [k1 + div + k2 + ... + div + kn] *)
Fixpoint join (div : string) (chain : list string) : string :=
  match chain with
  | [] => ""
  | [k] => k
  | k :: rest => k ++ div ++ join div rest
  end.

(** The assignments the flat mapping is made of, in order: each leaf under
    [front] and its joined chain of keys. *)
Definition leaf_assignments (div front : string) (ps : object)
  : list (string * value) :=
  map (fun cv => (front ++ join div (fst cv), snd cv)) (leaf_paths ps).

(** The value the last assignment to [k] in a run of assignments gives:
    what the flat mapping of the specification holds under [k]. *)
Fixpoint last_assigned (kvs : list (string * value)) (k : string)
  : option value :=
  match kvs with
  | [] => None
  | (k', v) :: kvs' =>
      match last_assigned kvs' k with
      | Some x => Some x
      | None => if k' =? k then Some v else None
      end
  end.

(** Defining own property after own property of [o]. *)
Definition assign_all (o : object) (kvs : list (string * value)) : object :=
  fold_left (fun t kv => obj_set t (fst kv) (snd kv)) kvs o.

(** No assignment of the run is to the name [__proto__]. *)
Definition proto_free (kvs : list (string * value)) : Prop :=
  Forall (fun kv => fst kv <> "__proto__") kvs.

(** The keys stand in the order JavaScript enumerates them: no key is an
    array index that belongs before an earlier key. *)
Definition key_order (ps : object) : Prop :=
  StronglySorted (fun a b => index_before (fst b) (fst a) = false) ps.

(** Whether a string holds a decimal digit. *)
Fixpoint has_digit (s : string) : bool :=
  match s with
  | EmptyString => false
  | String c s' =>
      (Nat.leb 48 (nat_of_ascii c) && Nat.leb (nat_of_ascii c) 57)
      || has_digit s'
  end.

(* ================================================================== *)
(** * The backing collection *)
(* ================================================================== *)

Module Mongo.

Definition doc := object.
Definition collection := list doc.

(** Writing a field of a stored document: an existing field keeps its
    place, a new one is added last. *)
Fixpoint doc_set (d : doc) (k : string) (v : value) : doc :=
  match d with
  | [] => [(k, v)]
  | (k', v') :: d' =>
      if k' =? k then (k, v) :: d' else (k', v') :: doc_set d' k v
  end.


(** What the collection hands to a callback: [cb(null, res)] on success,
    [cb(err)] on failure. *)
Inductive reply : Type :=
| Done (res : value)
| Failed (err : value).

Definition callback_args (r : reply) : value * value :=
  match r with
  | Done res => (VNull, res)
  | Failed err => (err, VUndef)
  end.

Definition write_error (msg : string) : value :=
  VInst "MongoError" [("message", VStr msg)].

(** Exact-match filter: every field of the filter is present in the
    document with an equal value. *)
Definition matches (filter : object) (d : doc) : bool :=
  forallb (fun kv => match obj_get d (fst kv) with
                     | Some x => value_eqb (snd kv) x
                     | None => false
                     end) filter.

Fixpoint first_match (filter : object) (c : collection) : option (nat * doc) :=
  match c with
  | [] => None
  | d :: c' =>
      if matches filter d then Some (0, d)
      else match first_match filter c' with
           | Some (i, d') => Some (S i, d')
           | None => None
           end
  end.

Fixpoint replace_nth {A} (i : nat) (x : A) (l : list A) : list A :=
  match l, i with
  | [], _ => []
  | _ :: l', 0 => x :: l'
  | y :: l', S i' => y :: replace_nth i' x l'
  end.

(** ** Field paths *)

(** A field name of an update document split at its dots. *)
Fixpoint split_dots (s : string) (cur : string) : list string :=
  match s with
  | EmptyString => [cur]
  | String c s' =>
      if Ascii.eqb c "." then cur :: split_dots s' ""
      else split_dots s' (cur ++ String c "")
  end.

Definition split_path (s : string) : list string := split_dots s "".

(** A name without dots is a path of one component. *)
Fixpoint dotless (s : string) : bool :=
  match s with
  | EmptyString => true
  | String c s' => negb (Ascii.eqb c ".") && dotless s'
  end.


(** Writing index [i] of an array, padding with [null] when it is beyond
    the end. *)
Fixpoint arr_set (l : list value) (i : nat) (v : value) : list value :=
  match i, l with
  | 0, [] => [v]
  | 0, _ :: l' => v :: l'
  | S i', [] => VNull :: arr_set [] i' v
  | S i', x :: l' => x :: arr_set l' i' v
  end.

(** The value at path [p] below [cur], if there is one. *)
Fixpoint get_field (p : list string) (cur : value) : option value :=
  match p with
  | [] => Some cur
  | k :: p' =>
      match cur with
      | VObj o =>
          match obj_get o k with
          | Some x => get_field p' x
          | None => None
          end
      | VArr l =>
          match key_index k with
          | Some i => match nth_error l i with
                      | Some x => get_field p' x
                      | None => None
                      end
          | None => None
          end
      | _ => None
      end
  end.

(** [$set] of one path: [cur] is what the slot holds now ([None]: nothing).
    Missing embedded documents are created, an array is entered by index,
    and a path through anything else is an error ([None]). *)
Fixpoint set_field (p : list string) (v : value) (cur : option value)
  : option value :=
  match p with
  | [] => Some v
  | k :: p' =>
      match cur with
      | None =>
          match set_field p' v None with
          | Some r => Some (VObj [(k, r)])
          | None => None
          end
      | Some (VObj o) =>
          match set_field p' v (obj_get o k) with
          | Some r => Some (VObj (doc_set o k r))
          | None => None
          end
      | Some (VArr l) =>
          match key_index k with
          | Some i =>
              match set_field p' v (nth_error l i) with
              | Some r => Some (VArr (arr_set l i r))
              | None => None
              end
          | None => None
          end
      | Some _ => None
      end
  end.

Definition get_path (d : doc) (p : list string) : option value :=
  get_field p (VObj d).

Definition set_path (d : doc) (p : list string) (v : value) : option doc :=
  match set_field p v (Some (VObj d)) with
  | Some (VObj d') => Some d'
  | _ => None
  end.

Fixpoint prefixb (p q : list string) : bool :=
  match p, q with
  | [], _ => true
  | k :: p', k' :: q' => (k =? k') && prefixb p' q'
  | _ :: _, [] => false
  end.

(** Two paths are independent when neither leads through the other. *)
Definition independent (p q : list string) : bool :=
  negb (prefixb p q) && negb (prefixb q p).

Definition path_ok (p : list string) : bool :=
  forallb (fun k => negb (k =? "")) p.

Fixpoint conflict_free (ps : list (list string)) : bool :=
  match ps with
  | [] => true
  | p :: ps' => forallb (independent p) ps' && conflict_free ps'
  end.

Definition paths_of (fields : object) : list (list string) :=
  map (fun kv => split_path (fst kv)) fields.

(** The paths of an update written one after the other. *)
Definition write_all (fields : object) (od : option doc) : option doc :=
  fold_left (fun od kv =>
               match od with
               | Some d' => set_path d' (split_path (fst kv)) (snd kv)
               | None => None
               end) fields od.

(** [{ $set: fields }] applied to one document: refused as a whole when a
    path has an empty component or two paths conflict, otherwise the paths
    are written one after the other. *)
Definition set_fields (d : doc) (fields : object) : option doc :=
  if forallb path_ok (paths_of fields) && conflict_free (paths_of fields)
  then write_all fields (Some d)
  else None.

(** An update document [{ $set: v }]. *)
Inductive update_doc : Type :=
| USet (v : value).

Definition set_operand (u : update_doc) : option object :=
  match u with
  | USet (VObj o) => Some o
  | USet (VInst _ o) => Some o
  | USet _ => None
  end.

(** Modelled from the spec: the collection's [findOneAndUpdate(filter,
    update, {upsert}, cb)] of the monk/MongoDB driver, which is not part of
    this repository.  The first document matching the exact-match filter
    gets the paths of [$set] written and nothing else touched; when none
    matches and [upsert] is set, a new document is made from the filter's
    fields and the paths; the reply carries the resulting document.  A
    refused update leaves the collection as it was.  Driver-generated
    [_id] fields and BSON conversion of the stored values are not
    modelled. *)
Definition findOneAndUpdate (c : collection) (filter : object)
  (u : update_doc) (upsert : bool) : collection * reply :=
  match set_operand u with
  | None => (c, Failed (write_error "Modifiers operate on fields"))
  | Some fields =>
      match first_match filter c with
      | Some (i, d) =>
          match set_fields d fields with
          | Some d' => (replace_nth i d' c, Done (VObj d'))
          | None => (c, Failed (write_error "Cannot apply $set"))
          end
      | None =>
          if upsert then
            match set_fields filter fields with
            | Some d' => ((c ++ [d'])%list, Done (VObj d'))
            | None => (c, Failed (write_error "Cannot apply $set"))
            end
          else (c, Done VNull)
      end
  end.

(** Modelled from the spec: [findOne(filter, cb)], [find(filter, cb)],
    [insert(doc, options, cb)] and [findOneAndDelete(filter, cb)] of the
    same driver. *)
Definition findOne (c : collection) (filter : object) : reply :=
  match first_match filter c with
  | Some (_, d) => Done (VObj d)
  | None => Done VNull
  end.

Definition find (c : collection) (filter : object) : reply :=
  Done (VArr (map VObj (List.filter (matches filter) c))).

(** [fault] is the error of the backing store when the insert fails (a
    duplicate key, a lost connection); nothing is stored then. *)
Definition insert (c : collection) (fault : option value) (data : value)
  : collection * reply :=
  match fault with
  | Some err => (c, Failed err)
  | None =>
      match data with
      | VObj d | VInst _ d => ((c ++ [d])%list, Done data)
      | _ => (c, Failed (write_error "Cannot insert a non-document"))
      end
  end.

Fixpoint remove_nth {A} (i : nat) (l : list A) : list A :=
  match l, i with
  | [], _ => []
  | _ :: l', 0 => l'
  | y :: l', S i' => y :: remove_nth i' l'
  end.

Definition findOneAndDelete (c : collection) (filter : object)
  : collection * reply :=
  match first_match filter c with
  | Some (i, d) => (remove_nth i c, Done (VObj d))
  | None => (c, Done VNull)
  end.

(** ** Sorted, limited queries *)

(** The sort key of a document on a field: its number, [None] when the
    field is missing or holds no number (ordered below every number). *)
Definition sort_key (field : string) (d : doc) : option Z :=
  match obj_get d field with
  | Some (VNum n) => Some n
  | _ => None
  end.

Definition key_le (a b : option Z) : bool :=
  match a, b with
  | None, _ => true
  | Some _, None => false
  | Some x, Some y => (x <=? y)%Z
  end.

(** [a] may stand before [b] in descending order on the field. *)
Definition above (field : string) (a b : doc) : Prop :=
  key_le (sort_key field b) (sort_key field a) = true.

(** Descending insertion: [d] goes in front of the first document whose key
    is not above its own. *)
Fixpoint insert_desc (field : string) (d : doc) (l : list doc) : list doc :=
  match l with
  | [] => [d]
  | e :: l' =>
      if key_le (sort_key field e) (sort_key field d) then d :: e :: l'
      else e :: insert_desc field d l'
  end.

Fixpoint sort_desc (field : string) (l : list doc) : list doc :=
  match l with
  | [] => []
  | d :: l' => insert_desc field d (sort_desc field l')
  end.

(** Modelled from the spec: [find(filter, {limit, sort: {field: -1}}, cb)]
    of the driver: the documents matching the exact-match filter, sorted
    descending on the field, capped at [limit] results. *)
Definition find_sorted_desc (c : collection) (filter : object)
  (field : string) (limit : nat) : list doc :=
  firstn limit (sort_desc field (List.filter (matches filter) c)).

(** The query as the collection answers it: [fault] is the error of the
    backing store when the call fails. *)
Definition find_with_options (c : collection) (filter : object)
  (field : string) (limit : nat) (fault : option value) : reply :=
  match fault with
  | Some err => Failed err
  | None => Done (VArr (map VObj (find_sorted_desc c filter field limit)))
  end.

End Mongo.
Import Mongo.

(* ================================================================== *)
(** * getStorage: the zone store *)
(* ================================================================== *)

(** The operations of the object [getStorage(db, zone)] returns, over the
    contents [table] of the zone's collection.  A [Throw] is an exception
    raised before the collection is called; otherwise the new contents and
    what the callback receives are returned. *)
Module Zone.

Definition get (table : collection) (id : value) : reply :=
  findOne table [("id", id)].

Definition save (table : collection) (data : value)
  : result (collection * reply) :=
  id <- get_prop data "id" ;;
  patch <- toDot1 data ;;
  Ok (findOneAndUpdate table [("id", id)] (USet (VObj patch)) true).

Definition insert (table : collection) (fault : option value) (data : value)
  : collection * reply :=
  Mongo.insert table fault data.

Definition update (table : collection) (data : value)
  : result (collection * reply) :=
  id <- get_prop data "id" ;;
  Ok (findOneAndUpdate table [("id", id)] (USet data) true).

Definition all (table : collection) : reply := Mongo.find table [].

Definition find (table : collection) (data : object) : reply :=
  Mongo.find table data.

Definition delete (table : collection) (id : value) : collection * reply :=
  findOneAndDelete table [("id", id)].

End Zone.

(* ================================================================== *)
(** * The history extension *)
(* ================================================================== *)

Module History.

(** How a promise ends.  [CallbackThrew] is the callback raising an
    exception after the executor has returned: neither [resolve] nor
    [reject] is called and the promise stays pending. *)
Inductive settled : Type :=
| Resolved (v : value)
| Rejected (err : value)
| CallbackThrew (e : exn).

(** The callback given to [storage.history.insert] in [addToHistory]. *)
Definition addToHistory_cb (hist err : value) : settled :=
  if truthy err then Rejected err else Resolved hist.

(** The entry [{userId: user, message: message, date: now}]. *)
Definition entry (user message : value) (now : Z) : doc :=
  [("userId", user); ("message", message); ("date", VNum now)].

(** [addToHistory(message, user)], with [now] the reading of [Date.now()]
    and [fault] the error of the backing store when its insert fails. *)
Definition addToHistory (history : collection) (fault : option value)
  (now : Z) (message user : value) : collection * settled :=
  let hist := VObj (entry user message now) in
  let '(history', r) := Zone.insert history fault hist in
  (history', addToHistory_cb hist (fst (callback_args r))).

(** The callback given to [table.find] in [getHistoryForUser]: the length
    of [history] is logged first, then [err] is tested. *)
Definition getHistoryForUser_cb (err history : value) : settled :=
  match get_prop history "length" with
  | Throw e => CallbackThrew e
  | Ok _ | Beyond =>
      if truthy err then Rejected err
      else match history with
           | VArr l => Resolved (VArr (rev l))
           | _ => CallbackThrew (JsTypeError "history.reverse is not a function")
           end
  end.

(** [getHistoryForUser(user, limit)] over the contents [history] of the
    history collection; [fault] is the error of the backing store when its
    [find] fails. *)
Definition getHistoryForUser (history : collection) (fault : option value)
  (user : value) (limit : nat) : settled :=
  let '(err, res) :=
    callback_args
      (find_with_options history [("userId", user)] "date" limit fault) in
  getHistoryForUser_cb err res.

(** Ascending chronological order. *)
Definition date_le (a b : doc) : Prop :=
  key_le (sort_key "date" a) (sort_key "date" b) = true.

End History.

(* ================================================================== *)
(** * module.exports: the storage factory *)
(* ================================================================== *)

Module Factory.

(** What construction does to the outside, in order. *)
Inductive effect : Type :=
| Connect (uri options : value)   (* monk(config.mongoUri, config.mongoOptions) *)
| DbGet (zone : string).          (* db.get(zone), in getStorage *)

(** A zone store: the collection it is bound to, and whether the two
    history methods have been attached to it. *)
Record zone_store : Type := {
  zone_name : string;
  history_methods : bool
}.

(** The own properties of the storage object, in enumeration order. *)
Definition storage := list (string * zone_store).

Fixpoint storage_get (st : storage) (zone : string) : option zone_store :=
  match st with
  | [] => None
  | (z, s) :: st' => if z =? zone then Some s else storage_get st' zone
  end.

Fixpoint storage_replace (st : storage) (zone : string) (s : zone_store)
  : storage :=
  match st with
  | [] => []
  | (z, s') :: st' =>
      if z =? zone then (zone, s) :: st'
      else (z, s') :: storage_replace st' zone s
  end.

Fixpoint storage_add (st : storage) (zone : string) (s : zone_store)
  : storage :=
  match st with
  | [] => [(zone, s)]
  | (z, s') :: st' =>
      if index_before zone z then (zone, s) :: (z, s') :: st'
      else (z, s') :: storage_add st' zone s
  end.

(** [storage[zone] = s].  Under the name [__proto__] the assignment runs
    the setter of [Object.prototype]: the store becomes the prototype of
    the storage object, which gets no own property; the store being an
    object of seven writable methods, later assignments are not affected. *)
Definition storage_set (st : storage) (zone : string) (s : zone_store)
  : storage :=
  if zone =? "__proto__" then st
  else match storage_get st zone with
       | Some _ => storage_replace st zone s
       | None => storage_add st zone s
       end.

Definition getStorage (zone : string) : zone_store :=
  {| zone_name := zone; history_methods := false |}.

Definition need_address : exn := JsError "Need to provide mongo address.".
Definition no_history : exn := JsError "Unable to add history support!!".
Definition not_iterable : exn :=
  JsTypeError "config.tables.forEach is not a function".

Definition default_tables : list string :=
  ["teams"; "channels"; "users"; "history"].

(** The callback of [config.tables.forEach]: strings are pushed. *)
Definition push_table (tables : list string) (table : value) : list string :=
  match table with
  | VStr s => (tables ++ [s])%list
  | _ => tables
  end.

(** What [config.tables.forEach] is when [config.tables] is no array: an
    own property of an object if there is one, a method of its class that
    [value] does not carry for a non-plain object without one, and nothing
    for a plain object without one and for strings, numbers, booleans and
    functions. *)
Inductive forEach_member : Type :=
| NoForEach            (* [undefined], or a value that is no function *)
| UnknownForEach.      (* a function the model knows nothing of *)

Definition forEach_of (extra : value) : forEach_member :=
  match extra with
  | VObj o =>
      match obj_get o "forEach" with
      | Some VFun => UnknownForEach
      | _ => NoForEach
      end
  | VInst _ o =>
      match obj_get o "forEach" with
      | Some VFun => UnknownForEach
      | Some _ => NoForEach
      | None => UnknownForEach
      end
  | _ => NoForEach
  end.

(** [config.tables && config.tables.forEach(...)]: a falsy value is skipped
    and an array is walked; of any other value the [forEach] member is
    called, which throws when there is none and leaves the model when it
    is a function given from outside. *)
Definition add_tables (tables : list string) (extra : value)
  : result (list string) :=
  if truthy extra then
    match extra with
    | VArr l => Ok (fold_left push_table l tables)
    | _ =>
        match forEach_of extra with
        | NoForEach => Throw not_iterable
        | UnknownForEach => Beyond
        end
    end
  else Ok tables.

(** The factory: the effects performed, and the storage object returned or
    the exception thrown.  The handler given to [db.catch] runs only later,
    when the connection fails, and is left out. *)
Definition factory (config : value) : list effect * result storage :=
  if negb (truthy config) || negb (truthy (prop config "mongoUri")) then
    ([], Throw need_address)
  else
    let db := [Connect (prop config "mongoUri") (prop config "mongoOptions")] in
    match add_tables default_tables (prop config "tables") with
    | Throw e => (db, Throw e)
    | Beyond => (db, Beyond)
    | Ok tables =>
        let st := fold_left (fun st zone => storage_set st zone (getStorage zone))
                            tables [] in
        ((db ++ map DbGet tables)%list,
         match storage_get st "history" with
         | Some h =>
             Ok (storage_set st "history"
                   {| zone_name := zone_name h; history_methods := true |})
         | None => Throw no_history
         end)
    end.

End Factory.

(* ================================================================== *)
(** * Notions used to state further properties *)
(* ================================================================== *)

(** A value that is no object and not [null]. *)
Definition primitive (v : value) : bool :=
  match v with
  | VUndef | VBool _ | VNum _ | VStr _ => true
  | _ => false
  end.

(** The string entries of [config.tables], in order. *)
Fixpoint string_entries (l : list value) : list string :=
  match l with
  | [] => []
  | VStr s :: l' => s :: string_entries l'
  | _ :: l' => string_entries l'
  end.

(** The number of documents an exact-match filter selects. *)
Definition count_matches (filter : object) (c : collection) : nat :=
  List.length (List.filter (matches filter) c).

(** What the loop over the properties leaves in [iteration], when it ends:
    under every name but [__proto__] the value of the last assignment of
    the specification, the keys distinct and all of them assigned ones. *)
Definition loop_spec (div pre : string) (ps it r : object) : Prop :=
  (forall key, key <> "__proto__" ->
               obj_get r key
               = match last_assigned (leaf_assignments div pre ps) key with
                 | Some x => Some x
                 | None => obj_get it key
                 end)
  /\ (NoDup (keys it) -> NoDup (keys r))
  /\ (forall key, In key (keys r) ->
                  (In key (keys (leaf_assignments div pre ps))
                   /\ key <> "__proto__")
                  \/ In key (keys it))
  /\ (Forall (fun kv => isPlainObject (snd kv) = false) it ->
      Forall (fun kv => isPlainObject (snd kv) = false) r).

(* ================================================================== *)
(** * Objects: reading and defining own properties *)
(* ================================================================== *)

Lemma obj_get_replace_same o k v x :
  obj_get o k = Some x -> obj_get (obj_replace o k v) k = Some v.
Proof.
  induction o as [|[k' v'] o IH]; simpl; [discriminate|].
  destruct (k' =? k) eqn:E; simpl.
  - now rewrite String.eqb_refl.
  - now rewrite E.
Qed.

Lemma obj_get_replace_other o k k' v :
  k <> k' -> obj_get (obj_replace o k v) k' = obj_get o k'.
Proof.
  intros Hne. induction o as [|[k0 v0] o IH]; simpl; [reflexivity|].
  destruct (k0 =? k) eqn:E; simpl.
  - apply String.eqb_eq in E. subst k0.
    apply String.eqb_neq in Hne. now rewrite Hne.
  - now rewrite IH.
Qed.

Lemma obj_get_add_same o k v :
  obj_get o k = None -> obj_get (obj_add o k v) k = Some v.
Proof.
  induction o as [|[k' v'] o IH]; simpl.
  - now rewrite String.eqb_refl.
  - destruct (k' =? k) eqn:E; [discriminate|]. intros H.
    destruct (index_before k k'); simpl.
    + now rewrite String.eqb_refl.
    + rewrite E. now apply IH.
Qed.

Lemma obj_get_add_other o k k' v :
  k <> k' -> obj_get (obj_add o k v) k' = obj_get o k'.
Proof.
  intros Hne. apply String.eqb_neq in Hne.
  induction o as [|[k0 v0] o IH]; simpl.
  - now rewrite Hne.
  - destruct (index_before k k0); simpl.
    + now rewrite Hne.
    + now rewrite IH.
Qed.

Lemma obj_get_set_same o k v : obj_get (obj_set o k v) k = Some v.
Proof.
  unfold obj_set, has_own. destruct (obj_get o k) eqn:E.
  - eapply obj_get_replace_same; eauto.
  - now apply obj_get_add_same.
Qed.

Lemma obj_get_set_other o k k' v :
  k <> k' -> obj_get (obj_set o k v) k' = obj_get o k'.
Proof.
  intros Hne. unfold obj_set. destruct (has_own o k).
  - now apply obj_get_replace_other.
  - now apply obj_get_add_other.
Qed.

Lemma obj_get_set o k v k' :
  obj_get (obj_set o k v) k' = if k =? k' then Some v else obj_get o k'.
Proof.
  destruct (k =? k') eqn:E.
  - apply String.eqb_eq in E. subst. apply obj_get_set_same.
  - apply String.eqb_neq in E. now apply obj_get_set_other.
Qed.

Lemma in_keys_obj_get o k : In k (keys o) <-> obj_get o k <> None.
Proof.
  induction o as [|[k' v'] o IH]; simpl; [tauto|].
  destruct (k' =? k) eqn:E.
  - apply String.eqb_eq in E. split; [discriminate | auto].
  - apply String.eqb_neq in E. rewrite <- IH. tauto.
Qed.

Lemma obj_get_In o k v : obj_get o k = Some v -> In (k, v) o.
Proof.
  induction o as [|[k' v'] o IH]; simpl; [discriminate|].
  destruct (k' =? k) eqn:E.
  - apply String.eqb_eq in E. intros [= ->]. subst. now left.
  - intros H. right. now apply IH.
Qed.

Lemma in_keys_obj_set o k v k' :
  In k' (keys (obj_set o k v)) <-> k' = k \/ In k' (keys o).
Proof.
  rewrite !in_keys_obj_get, obj_get_set.
  destruct (k =? k') eqn:E.
  - apply String.eqb_eq in E. subst. split; [auto | discriminate].
  - apply String.eqb_neq in E. split; [auto | intros [->|H]; tauto].
Qed.

Lemma keys_obj_replace o k v : keys (obj_replace o k v) = keys o.
Proof.
  induction o as [|[k' v'] o IH]; simpl; [reflexivity|].
  destruct (k' =? k) eqn:E; simpl.
  - apply String.eqb_eq in E. now subst.
  - now rewrite IH.
Qed.

Lemma in_keys_obj_add o k v k' :
  In k' (keys (obj_add o k v)) <-> k' = k \/ In k' (keys o).
Proof.
  induction o as [|[k0 v0] o IH]; simpl; [intuition|].
  destruct (index_before k k0); simpl; [intuition|].
  rewrite IH. intuition.
Qed.

Lemma NoDup_keys_obj_add o k v :
  ~ In k (keys o) -> NoDup (keys o) -> NoDup (keys (obj_add o k v)).
Proof.
  induction o as [|[k' v'] o IH]; simpl; intros Hni Hnd.
  - constructor; [tauto | constructor].
  - inversion Hnd as [|? ? Hni' Hnd']; subst.
    destruct (index_before k k'); simpl.
    + constructor; [simpl; tauto | exact Hnd].
    + constructor; [|apply IH; tauto].
      rewrite in_keys_obj_add. intros [->|H]; tauto.
Qed.

Lemma NoDup_keys_obj_set o k v :
  NoDup (keys o) -> NoDup (keys (obj_set o k v)).
Proof.
  intros H. unfold obj_set, has_own. destruct (obj_get o k) eqn:E.
  - now rewrite keys_obj_replace.
  - apply NoDup_keys_obj_add; [|exact H].
    rewrite in_keys_obj_get. congruence.
Qed.

(** A name that need not stand before any of the present ones goes last. *)
Lemma obj_add_last o k v :
  (forall k', In k' (keys o) -> index_before k k' = false) ->
  obj_add o k v = (o ++ [(k, v)])%list.
Proof.
  induction o as [|[k' v'] o IH]; simpl; intros H; [reflexivity|].
  rewrite (H k') by now left. rewrite IH; auto.
Qed.

Lemma Forall_obj_set (P : string * value -> Prop) o k v :
  Forall P o -> P (k, v) -> Forall P (obj_set o k v).
Proof.
  intros Ho Hkv. unfold obj_set. destruct (has_own o k).
  - induction o as [|[k' v'] o IH]; simpl; [constructor|].
    inversion Ho; subst. destruct (k' =? k); constructor; auto.
  - induction o as [|[k' v'] o IH]; simpl; [now constructor|].
    inversion Ho; subst.
    destruct (index_before k k'); repeat constructor; auto.
Qed.

Lemma assign_all_app o l m :
  assign_all o (l ++ m) = assign_all (assign_all o l) m.
Proof. unfold assign_all. apply fold_left_app. Qed.

Lemma assign_all_cons o k v l :
  assign_all o ((k, v) :: l) = assign_all (obj_set o k v) l.
Proof. reflexivity. Qed.

Lemma NoDup_keys_assign_all l o :
  NoDup (keys o) -> NoDup (keys (assign_all o l)).
Proof.
  revert o. induction l as [|[k v] l IH]; intros o H; [exact H|].
  rewrite assign_all_cons. apply IH. now apply NoDup_keys_obj_set.
Qed.

Lemma Forall_assign_all (P : string * value -> Prop) l o :
  Forall P o -> Forall (fun kv => P (fst kv, snd kv)) l ->
  Forall P (assign_all o l).
Proof.
  revert o. induction l as [|[k v] l IH]; intros o Ho Hl; [exact Ho|].
  inversion Hl; subst. rewrite assign_all_cons. apply IH; [|assumption].
  now apply Forall_obj_set.
Qed.

Lemma obj_get_assign_all l :
  forall o k,
    obj_get (assign_all o l) k
    = match last_assigned l k with
      | Some v => Some v
      | None => obj_get o k
      end.
Proof.
  induction l as [|[k' v] l IH]; intros o k; [reflexivity|].
  rewrite assign_all_cons, IH. simpl.
  destruct (last_assigned l k); [reflexivity|].
  rewrite obj_get_set. now destruct (k' =? k).
Qed.

(** A mapping whose keys are distinct and in enumeration order is rebuilt
    as it is by defining its properties one after the other. *)
Lemma assign_all_in_order ps :
  forall it,
    NoDup (keys (it ++ ps)%list) -> key_order (it ++ ps)%list ->
    assign_all it ps = (it ++ ps)%list.
Proof.
  induction ps as [|[k v] ps IH]; intros it Hnd Hord.
  - now rewrite app_nil_r.
  - rewrite assign_all_cons.
    assert (Hset : obj_set it k v = (it ++ [(k, v)])%list).
    { unfold obj_set, has_own.
      assert (Hni : ~ In k (keys it)).
      { unfold keys in Hnd. rewrite map_app in Hnd. simpl in Hnd.
        apply NoDup_remove_2 in Hnd. intros H. apply Hnd.
        apply in_or_app. now left. }
      destruct (obj_get it k) eqn:E.
      - elim Hni. apply in_keys_obj_get. congruence.
      - apply obj_add_last. intros k' Hk'.
        unfold keys in Hk'. apply in_map_iff in Hk'.
        destruct Hk' as [[k0 v0] [<- Hin]]. simpl.
        unfold key_order in Hord. clear - Hord Hin.
        induction it as [|a it IH]; [destruct Hin|].
        simpl in Hord. inversion Hord as [|? ? Hs Hf]; subst.
        destruct Hin as [->|Hin]; [|now apply IH].
        rewrite Forall_forall in Hf.
        apply (Hf (k, v)). apply in_or_app. right. now left. }
    rewrite Hset.
    replace (it ++ (k, v) :: ps)%list with ((it ++ [(k, v)]) ++ ps)%list in *
      by (now rewrite <- app_assoc).
    now apply IH.
Qed.

Lemma last_assigned_app l m k :
  last_assigned (l ++ m)%list k
  = match last_assigned m k with
    | Some v => Some v
    | None => last_assigned l k
    end.
Proof.
  induction l as [|[k' v] l IH]; simpl.
  - now destruct (last_assigned m k).
  - rewrite IH. now destruct (last_assigned m k).
Qed.

Lemma last_assigned_none l k :
  (forall kv, In kv l -> fst kv <> k) -> last_assigned l k = None.
Proof.
  induction l as [|[k' v] l IH]; intros H; simpl; [reflexivity|].
  rewrite IH by (intros kv Hkv; apply H; now right).
  specialize (H (k', v) (or_introl eq_refl)). simpl in H.
  apply String.eqb_neq in H. now rewrite H.
Qed.


(** In a mapping with distinct keys the last assignment to a key is the
    only one. *)
Lemma last_assigned_distinct o k :
  NoDup (keys o) -> last_assigned o k = obj_get o k.
Proof.
  induction o as [|[k' v] o IH]; intros Hnd; [reflexivity|].
  inversion Hnd as [|? ? Hni Hnd']; subst. simpl. rewrite IH by exact Hnd'.
  destruct (k' =? k) eqn:E; [|now destruct (obj_get o k)].
  apply String.eqb_eq in E. subst k'.
  destruct (obj_get o k) eqn:G; [|reflexivity].
  elim Hni. apply in_keys_obj_get. congruence.
Qed.

(** ** Assignments *)

Lemma js_set_no_throw o k v e : js_set o k v <> Throw e.
Proof. unfold js_set. destruct (k =? "__proto__"); [destruct v|]; discriminate. Qed.

Lemma js_set_plain o k v :
  k <> "__proto__" -> js_set o k v = Ok (obj_set o k v).
Proof.
  intros H. unfold js_set. apply String.eqb_neq in H. now rewrite H.
Qed.

Lemma js_set_lookup o k v o' key :
  js_set o k v = Ok o' -> key <> "__proto__" ->
  obj_get o' key = if k =? key then Some v else obj_get o key.
Proof.
  unfold js_set. intros H Hkey. destruct (k =? "__proto__") eqn:E.
  - apply String.eqb_eq in E. subst k.
    assert (Hne : ("__proto__" =? key) = false)
      by (apply String.eqb_neq; congruence).
    rewrite Hne. destruct v; try discriminate; now injection H as <-.
  - injection H as <-. apply obj_get_set.
Qed.

Lemma js_set_keys o k v o' key :
  js_set o k v = Ok o' ->
  In key (keys o') -> (key = k /\ k <> "__proto__") \/ In key (keys o).
Proof.
  unfold js_set. intros H Hin. destruct (k =? "__proto__") eqn:E.
  - right. destruct v; try discriminate; now injection H as <-.
  - injection H as <-. apply String.eqb_neq in E.
    apply in_keys_obj_set in Hin. destruct Hin as [->|Hin]; auto.
Qed.

Lemma js_set_NoDup o k v o' :
  js_set o k v = Ok o' -> NoDup (keys o) -> NoDup (keys o').
Proof.
  unfold js_set. intros H Hnd. destruct (k =? "__proto__").
  - destruct v; try discriminate; now injection H as <-.
  - injection H as <-. now apply NoDup_keys_obj_set.
Qed.

Lemma js_set_values (P : string * value -> Prop) o k v o' :
  js_set o k v = Ok o' -> Forall P o -> P (k, v) -> Forall P o'.
Proof.
  unfold js_set. intros H Ho Hkv. destruct (k =? "__proto__").
  - destruct v; try discriminate; now injection H as <-.
  - injection H as <-. now apply Forall_obj_set.
Qed.

Lemma obj_assign_no_throw src : forall t e, obj_assign t src <> Throw e.
Proof.
  induction src as [|[k v] src IH]; intros t e; simpl; [discriminate|].
  destruct (js_set t k v) as [t'| |] eqn:E; simpl; try discriminate.
  - apply IH.
  - now apply js_set_no_throw in E.
Qed.

Lemma obj_assign_plain src :
  forall t, proto_free src -> obj_assign t src = Ok (assign_all t src).
Proof.
  induction src as [|[k v] src IH]; intros t H; [reflexivity|].
  inversion H as [|? ? Hk Hsrc]; subst. simpl in Hk. simpl.
  rewrite js_set_plain by exact Hk. simpl. now apply IH.
Qed.

Lemma obj_assign_lookup src :
  forall t t' key,
    obj_assign t src = Ok t' -> key <> "__proto__" ->
    obj_get t' key
    = match last_assigned src key with
      | Some v => Some v
      | None => obj_get t key
      end.
Proof.
  induction src as [|[k v] src IH]; intros t t' key H Hkey; simpl in *.
  - now injection H as <-.
  - destruct (js_set t k v) as [t1| |] eqn:E; try discriminate.
    simpl in H. rewrite (IH _ _ _ H Hkey).
    destruct (last_assigned src key); [reflexivity|].
    rewrite (js_set_lookup _ _ _ _ _ E Hkey). now destruct (k =? key).
Qed.

Lemma obj_assign_keys src :
  forall t t' key,
    obj_assign t src = Ok t' ->
    In key (keys t') ->
    (In key (keys src) /\ key <> "__proto__") \/ In key (keys t).
Proof.
  induction src as [|[k v] src IH]; intros t t' key H Hin; simpl in *.
  - injection H as <-. now right.
  - destruct (js_set t k v) as [t1| |] eqn:E; try discriminate.
    simpl in H. destruct (IH _ _ _ H Hin) as [[Hs Hp]|Ht]; [now auto|].
    destruct (js_set_keys _ _ _ _ _ E Ht) as [[-> Hp]|Ht']; auto.
Qed.

Lemma obj_assign_NoDup src :
  forall t t', obj_assign t src = Ok t' -> NoDup (keys t) -> NoDup (keys t').
Proof.
  induction src as [|[k v] src IH]; intros t t' H Hnd; simpl in *.
  - now injection H as <-.
  - destruct (js_set t k v) as [t1| |] eqn:E; try discriminate.
    simpl in H. eapply IH; eauto. eapply js_set_NoDup; eauto.
Qed.

Lemma obj_assign_values (P : string * value -> Prop) src :
  forall t t',
    obj_assign t src = Ok t' -> Forall P t -> Forall P src -> Forall P t'.
Proof.
  induction src as [|[k v] src IH]; intros t t' H Ht Hs; simpl in *.
  - now injection H as <-.
  - destruct (js_set t k v) as [t1| |] eqn:E; try discriminate.
    inversion Hs; subst. simpl in H. eapply IH; eauto.
    eapply js_set_values; eauto.
Qed.

Lemma value_eqb_refl v : value_eqb v v = true.
Proof.
  induction v using value_ind; simpl; auto.
  - apply Bool.eqb_reflx.
  - apply Z.eqb_refl.
  - apply String.eqb_refl.
  - induction H as [|x l Hx Hl IH]; [reflexivity|]. now rewrite Hx, IH.
  - induction H as [|[k x] l Hx Hl IH]; [reflexivity|].
    cbn [snd] in Hx. now rewrite String.eqb_refl, Hx, IH.
  - rewrite String.eqb_refl. simpl.
    induction H as [|[k x] l Hx Hl IH]; [reflexivity|].
    cbn [snd] in Hx. now rewrite String.eqb_refl, Hx, IH.
Qed.

(* ================================================================== *)
(** * Properties of the flattener *)
(* ================================================================== *)

Lemma toDot_obj ps div pre :
  toDot (VObj ps) div pre = each_prop div (key_prefix div pre) ps [].
Proof.
  simpl. fold (key_prefix div pre).
  generalize (@nil (string * value)).
  induction ps as [|[k x] ps IH]; intros it; simpl.
  - reflexivity.
  - destruct (isPlainObject x).
    + destruct (toDot x div _); simpl; try reflexivity.
      destruct (obj_assign it a); simpl; try reflexivity. apply IH.
    + destruct (js_set it _ x); simpl; try reflexivity. apply IH.
Qed.

Lemma toDot_inst c ps div pre :
  toDot (VInst c ps) div pre = each_prop div (key_prefix div pre) ps [].
Proof.
  simpl. fold (key_prefix div pre).
  generalize (@nil (string * value)).
  induction ps as [|[k x] ps IH]; intros it; simpl.
  - reflexivity.
  - destruct (isPlainObject x).
    + destruct (toDot x div _); simpl; try reflexivity.
      destruct (obj_assign it a); simpl; try reflexivity. apply IH.
    + destruct (js_set it _ x); simpl; try reflexivity. apply IH.
Qed.

Lemma toDot_arr l div pre :
  toDot (VArr l) div pre = each_elem div (key_prefix div pre) 0 l [].
Proof.
  simpl. fold (key_prefix div pre).
  generalize (@nil (string * value)) 0.
  induction l as [|x l IH]; intros it i; simpl.
  - reflexivity.
  - destruct (isPlainObject x).
    + destruct (toDot x div _); simpl; try reflexivity.
      destruct (obj_assign it a); simpl; try reflexivity. apply IH.
    + destruct (js_set it _ x); simpl; try reflexivity. apply IH.
Qed.

Lemma each_elem_as_props div pre l :
  forall i it, each_elem div pre i l it = each_prop div pre (arr_props i l) it.
Proof.
  induction l as [|x l IH]; intros i it; simpl; [reflexivity|].
  destruct (isPlainObject x).
  - destruct (toDot x div _); simpl; try reflexivity.
    destruct (obj_assign it a); simpl; try reflexivity. apply IH.
  - destruct (js_set it _ x); simpl; try reflexivity. apply IH.
Qed.

Lemma leaves_cons key x ps :
  leaves (VObj ((key, x) :: ps))
  = (map (fun cv => (key :: fst cv, snd cv)) (leaves x) ++ leaves (VObj ps))%list.
Proof. reflexivity. Qed.

Lemma leaves_leaf x : isPlainObject x = false -> leaves x = [([], x)].
Proof. destruct x; simpl; intros H; try reflexivity; discriminate. Qed.

(** Every chain to a leaf of a mapping has a first key. *)
Lemma leaves_obj_nonempty ps cv : In cv (leaves (VObj ps)) -> fst cv <> [].
Proof.
  induction ps as [|[k x] ps IH]; [intros []|].
  rewrite leaves_cons, in_app_iff, in_map_iff.
  intros [[cv' [<- _]]|H]; [discriminate | now apply IH].
Qed.

Lemma leaves_app ps qs :
  leaves (VObj (ps ++ qs))
  = (leaves (VObj ps) ++ leaves (VObj qs))%list.
Proof.
  induction ps as [|[k x] ps IH]; [reflexivity|].
  change (((k, x) :: ps) ++ qs)%list with ((k, x) :: (ps ++ qs))%list.
  now rewrite !leaves_cons, IH, List.app_assoc.
Qed.

(** No leaf is a plain object. *)
Lemma leaves_are_leaves v :
  Forall (fun cv => isPlainObject (snd cv) = false) (leaves v).
Proof.
  induction v using value_ind;
    try (constructor; [reflexivity | constructor]).
  induction o as [|[k x] ps IHps]; [constructor|].
  inversion H as [|? ? Hx Hps]; subst. cbn [snd] in Hx.
  rewrite leaves_cons. apply Forall_app. split; [|now apply IHps].
  apply Forall_map. exact Hx.
Qed.

Lemma leaves_flat ps :
  Forall (fun kv => isPlainObject (snd kv) = false) ps ->
  leaves (VObj ps) = map (fun kv => ([fst kv], snd kv)) ps.
Proof.
  induction ps as [|[k x] ps IH]; intros H; [reflexivity|].
  inversion H as [|? ? Hx Hps]; subst. cbn [snd] in Hx.
  rewrite leaves_cons, (leaves_leaf _ Hx), IH by exact Hps. reflexivity.
Qed.

Lemma append_assoc (a b c : string) : (a ++ b) ++ c = a ++ (b ++ c).
Proof. induction a; simpl; [reflexivity | now rewrite IHa]. Qed.


Lemma join_cons div k c : c <> [] -> join div (k :: c) = k ++ div ++ join div c.
Proof. destruct c; [congruence | reflexivity]. Qed.

Lemma leaf_assignments_cons div front k x ps :
  leaf_assignments div front ((k, x) :: ps)
  = List.app
      (map (fun cv => (front ++ join div (k :: fst cv), snd cv)) (leaves x))
      (leaf_assignments div front ps).
Proof.
  unfold leaf_assignments, leaf_paths.
  now rewrite leaves_cons, map_app, map_map.
Qed.

(** The assignments made below the key [k] are those of the nested mapping
    under the accumulated path. *)
Lemma leaf_assignments_nested div front k inner :
  map (fun cv => (front ++ join div (k :: fst cv), snd cv))
      (leaves (VObj inner))
  = leaf_assignments div ((front ++ k) ++ div) inner.
Proof.
  unfold leaf_assignments, leaf_paths. apply map_ext_in. intros cv Hcv.
  apply leaves_obj_nonempty in Hcv. rewrite join_cons by exact Hcv.
  now rewrite !append_assoc.
Qed.

Lemma leaf_assignments_leaf div front k x :
  isPlainObject x = false ->
  map (fun cv => (front ++ join div (k :: fst cv), snd cv)) (leaves x)
  = [(front ++ k, x)].
Proof. intros H. now rewrite (leaves_leaf _ H). Qed.

Lemma leaf_assignments_are_leaves div front ps :
  Forall (fun kv => isPlainObject (snd kv) = false)
         (leaf_assignments div front ps).
Proof.
  unfold leaf_assignments, leaf_paths. apply Forall_map. cbn [snd].
  apply leaves_are_leaves.
Qed.

Lemma keys_app (a b : object) : keys (a ++ b)%list = (keys a ++ keys b)%list.
Proof. apply map_app. Qed.

Lemma each_prop_spec div :
  forall v, match v with
            | VObj ps =>
                forall pre it r,
                  each_prop div pre ps it = Ok r -> loop_spec div pre ps it r
            | _ => True
            end.
Proof.
  induction v using value_ind; try exact I.
  induction o as [|[k x] ps IHps]; intros pre it r Hr.
  - injection Hr as <-. unfold loop_spec. cbn.
    repeat split; auto.
  - inversion H as [|? ? Hx Hps]; subst. cbn [snd] in Hx. clear H.
    specialize (IHps Hps). cbn [each_prop] in Hr.
    unfold loop_spec. rewrite leaf_assignments_cons.
    destruct (isPlainObject x) eqn:Eplain.
    + destruct x; try discriminate. rewrite toDot_obj in Hr.
      cbn [key_prefix] in Hr. rewrite leaf_assignments_nested.
      destruct (each_prop div ((pre ++ k) ++ div) props []) as [r1| |] eqn:E1;
        try discriminate.
      cbn [bind] in Hr.
      destruct (obj_assign it r1) as [it1| |] eqn:E2; try discriminate.
      cbn [bind] in Hr.
      destruct (Hx _ _ _ E1) as [L1 [N1 [K1 V1]]].
      destruct (IHps _ _ _ Hr) as [L2 [N2 [K2 V2]]].
      specialize (N1 (NoDup_nil _)).
      unfold loop_spec. split; [|split; [|split]].
      * intros key Hkey. rewrite (L2 key Hkey), last_assigned_app.
        destruct (last_assigned (leaf_assignments div pre ps) key);
          [reflexivity|].
        rewrite (obj_assign_lookup _ _ _ _ E2 Hkey).
        rewrite (last_assigned_distinct _ _ N1), (L1 key Hkey).
        now destruct (last_assigned _ key).
      * intros Hnd. apply N2. eapply obj_assign_NoDup; eauto.
      * intros key Hin. rewrite keys_app, in_app_iff.
        destruct (K2 key Hin) as [[Ha Hp]|Hit1]; [now auto|].
        destruct (obj_assign_keys _ _ _ _ E2 Hit1) as [[Hr1 Hp]|Hit];
          [|now right].
        destruct (K1 key Hr1) as [[Ha _]|[]]. left. auto.
      * intros Hit. apply V2.
        apply (obj_assign_values _ _ _ _ E2 Hit). apply V1. constructor.
    + rewrite (leaf_assignments_leaf _ _ _ _ Eplain).
      destruct (js_set it (pre ++ k) x) as [it1| |] eqn:E2; try discriminate.
      cbn [bind] in Hr.
      destruct (IHps _ _ _ Hr) as [L2 [N2 [K2 V2]]].
      unfold loop_spec. split; [|split; [|split]].
      * intros key Hkey. rewrite (L2 key Hkey), last_assigned_app.
        destruct (last_assigned (leaf_assignments div pre ps) key);
          [reflexivity|].
        rewrite (js_set_lookup _ _ _ _ _ E2 Hkey). simpl.
        now destruct (pre ++ k =? key).
      * intros Hnd. apply N2. eapply js_set_NoDup; eauto.
      * intros key Hin. rewrite keys_app, in_app_iff.
        destruct (K2 key Hin) as [[Ha Hp]|Hit1]; [now auto|].
        destruct (js_set_keys _ _ _ _ _ E2 Hit1) as [[-> Hp]|Hit];
          [|now right].
        left. split; [|exact Hp]. left. now left.
      * intros Hit. apply V2. eapply js_set_values; eauto.
Qed.

(** The loop never throws. *)
Lemma each_prop_no_throw div :
  forall v, match v with
            | VObj ps => forall pre it e, each_prop div pre ps it <> Throw e
            | _ => True
            end.
Proof.
  induction v using value_ind; try exact I.
  induction o as [|[k x] ps IHps]; intros pre it e; [discriminate|].
  inversion H as [|? ? Hx Hps]; subst. cbn [snd] in Hx. clear H.
  specialize (IHps Hps). cbn [each_prop].
  destruct (isPlainObject x) eqn:Eplain.
  - destruct x; try discriminate. rewrite toDot_obj.
    destruct (each_prop div _ props []) as [r1| |] eqn:E1; cbn [bind].
    + destruct (obj_assign it r1) as [it1| |] eqn:E2; cbn [bind].
      * apply IHps.
      * now apply obj_assign_no_throw in E2.
      * discriminate.
    + now apply Hx in E1.
    + discriminate.
  - destruct (js_set it (pre ++ k) x) as [it1| |] eqn:E2; cbn [bind].
    + apply IHps.
    + now apply js_set_no_throw in E2.
    + discriminate.
Qed.

(** When no assignment is to [__proto__], the loop ends, with the flat
    mapping built by defining the assigned properties in order. *)
Lemma each_prop_ok div :
  forall v, match v with
            | VObj ps =>
                forall pre it,
                  proto_free (leaf_assignments div pre ps) ->
                  exists r, each_prop div pre ps it = Ok r
            | _ => True
            end.
Proof.
  induction v using value_ind; try exact I.
  induction o as [|[k x] ps IHps]; intros pre it Hfree; [simpl; eauto|].
  inversion H as [|? ? Hx Hps]; subst. cbn [snd] in Hx. clear H.
  specialize (IHps Hps). cbn [each_prop].
  rewrite leaf_assignments_cons in Hfree. unfold proto_free in Hfree.
  apply Forall_app in Hfree. destruct Hfree as [Hhead Htail].
  destruct (isPlainObject x) eqn:Eplain.
  - destruct x; try discriminate. rewrite toDot_obj. cbn [key_prefix].
    rewrite leaf_assignments_nested in Hhead.
    destruct (Hx ((pre ++ k) ++ div) [] Hhead) as [r1 E1].
    rewrite E1. cbn [bind].
    destruct (each_prop_spec div (VObj props) _ _ _ E1) as [_ [_ [K1 _]]].
    assert (Hr1 : proto_free r1).
    { apply Forall_forall. intros [key v] Hin. cbn [fst].
      destruct (K1 key) as [[_ Hp]|[]]; [|exact Hp].
      apply in_map_iff. now exists (key, v). }
    rewrite (obj_assign_plain _ _ Hr1). cbn [bind]. now apply IHps.
  - rewrite (leaf_assignments_leaf _ _ _ _ Eplain) in Hhead.
    inversion Hhead as [|? ? Hk _]; subst. cbn [fst] in Hk.
    rewrite (js_set_plain _ _ _ Hk). cbn [bind]. now apply IHps.
Qed.

(** The own properties [toDot] walks over. *)
Lemma toDot_own_props v div pre :
  typeof v = "object" -> v <> VNull ->
  exists ps,
    (v = VObj ps \/ (exists c, v = VInst c ps)
     \/ (exists l, v = VArr l /\ ps = arr_props 0 l))
    /\ toDot v div pre = each_prop div (key_prefix div pre) ps [].
Proof.
  intros Ht Hn. destruct v; try discriminate; try congruence.
  - exists (arr_props 0 elems). split; [right; right; eauto|].
    now rewrite toDot_arr, each_elem_as_props.
  - exists props. split; [now left|]. apply toDot_obj.
  - exists props. split; [right; left; eauto|]. apply toDot_inst.
Qed.

(** What [toDot] returns for a plain object, whenever it returns: under
    every name but [__proto__] the leaf of the last chain that joins to it,
    distinct keys all of which some chain joins to, and leaves only. *)
Lemma toDot_spec ps div pre r :
  toDot (VObj ps) div pre = Ok r ->
  (forall key, key <> "__proto__" ->
               obj_get r key
               = last_assigned (leaf_assignments div (key_prefix div pre) ps) key)
  /\ NoDup (keys r)
  /\ (forall key, In key (keys r) ->
                  In key (keys (leaf_assignments div (key_prefix div pre) ps))
                  /\ key <> "__proto__")
  /\ Forall (fun kv => isPlainObject (snd kv) = false) r.
Proof.
  rewrite toDot_obj. intros H.
  destruct (each_prop_spec div (VObj ps) _ _ _ H) as [L [N [K V]]].
  split; [|split; [|split]].
  - intros key Hkey. rewrite (L key Hkey). now destruct (last_assigned _ key).
  - apply N. constructor.
  - intros key Hin. destruct (K key Hin) as [Ha|[]]. exact Ha.
  - apply V. constructor.
Qed.

(** When no chain joins to [__proto__], [toDot] returns the flat mapping of
    the specification. *)
Lemma toDot_proto_free ps div pre :
  proto_free (leaf_assignments div (key_prefix div pre) ps) ->
  exists r,
    toDot (VObj ps) div pre = Ok r
    /\ forall key,
        obj_get r key
        = last_assigned (leaf_assignments div (key_prefix div pre) ps) key.
Proof.
  intros Hfree.
  destruct (each_prop_ok div (VObj ps) (key_prefix div pre) [] Hfree) as [r E].
  exists r. rewrite toDot_obj. split; [exact E|].
  rewrite <- toDot_obj in E. destruct (toDot_spec _ _ _ _ E) as [L [_ [K _]]].
  intros key. destruct (string_dec key "__proto__") as [->|Hne]; [|now apply L].
  rewrite last_assigned_none.
  - destruct (obj_get r "__proto__") eqn:G; [|reflexivity].
    destruct (K "__proto__") as [_ Hp]; [|now elim Hp].
    apply in_keys_obj_get. congruence.
  - intros kv Hkv. unfold proto_free in Hfree.
    rewrite Forall_forall in Hfree. now apply Hfree.
Qed.

(** A flat mapping is assigned property by property. *)
Lemma each_prop_flat div ps :
  Forall (fun kv => isPlainObject (snd kv) = false) ps ->
  ~ In "__proto__" (keys ps) ->
  forall it, each_prop div "" ps it = Ok (assign_all it ps).
Proof.
  induction ps as [|[k x] ps IH]; intros Hflat Hni it; [reflexivity|].
  inversion Hflat as [|? ? Hx Hps]; subst. cbn [snd] in Hx.
  simpl in Hni. cbn [each_prop append]. rewrite Hx.
  rewrite js_set_plain by tauto. cbn [bind].
  rewrite assign_all_cons. apply IH; tauto.
Qed.

Lemma unorm_not_nil d : Decimal.unorm d <> Decimal.Nil.
Proof. unfold Decimal.unorm. destruct (Decimal.nzhead d); discriminate. Qed.

Lemma has_digit_app a b : has_digit (a ++ b) = has_digit a || has_digit b.
Proof.
  induction a as [|c a IH]; [reflexivity|].
  simpl. rewrite IH. now rewrite orb_assoc.
Qed.

Lemma has_digit_index_key i : has_digit (index_key i) = true.
Proof.
  unfold index_key.
  assert (H : Nat.to_uint i <> Decimal.Nil).
  { rewrite <- (DecimalNat.Unsigned.of_to i) at 1.
    rewrite DecimalNat.Unsigned.to_of. apply unorm_not_nil. }
  destruct (Nat.to_uint i); try reflexivity. now elim H.
Qed.

Lemma has_digit_join div k c :
  has_digit k = true -> has_digit (join div (k :: c)) = true.
Proof.
  intros H. destruct c as [|k2 c]; [exact H|].
  rewrite join_cons by discriminate. now rewrite has_digit_app, H.
Qed.

(** Every key assigned for an array holds a digit, so none is [__proto__]. *)
Lemma arr_props_proto_free div front l :
  forall i, proto_free (leaf_assignments div front (arr_props i l)).
Proof.
  induction l as [|x l IH]; intros i; [constructor|].
  cbn [arr_props]. rewrite leaf_assignments_cons.
  apply Forall_app. split; [|apply IH].
  apply Forall_map. apply Forall_forall. intros cv _. cbn [fst].
  intros E.
  assert (D : has_digit (front ++ join div (index_key i :: fst cv)) = true).
  { rewrite has_digit_app, (has_digit_join _ _ _ (has_digit_index_key i)).
    apply orb_true_r. }
  rewrite E in D. discriminate.
Qed.

Lemma each_elem_total div l :
  forall pre i it, exists r, each_elem div pre i l it = Ok r.
Proof.
  intros pre i it. rewrite each_elem_as_props.
  apply (each_prop_ok div (VObj (arr_props i l))).
  apply arr_props_proto_free.
Qed.

(** The elements of an array are assigned under their indices. *)
Lemma each_elem_flat div l :
  Forall (fun x => isPlainObject x = false) l ->
  forall pre i it,
    each_elem div pre i l it
    = Ok (assign_all it (map (fun kv => (pre ++ fst kv, snd kv)) (arr_props i l))).
Proof.
  induction 1 as [|x l Hx Hl IH]; intros pre i it; [reflexivity|].
  cbn [each_elem arr_props map]. rewrite Hx.
  rewrite js_set_plain.
  - cbn [bind]. rewrite assign_all_cons. apply IH.
  - intros E.
    assert (D : has_digit (pre ++ index_key i) = true)
      by (rewrite has_digit_app, has_digit_index_key; apply orb_true_r).
    rewrite E in D. discriminate.
Qed.

Lemma last_assigned_some l k v : In (k, v) l -> last_assigned l k <> None.
Proof.
  induction l as [|[k' v'] l IH]; intros Hin; [destruct Hin|].
  simpl. destruct (last_assigned l k) eqn:E; [discriminate|].
  destruct Hin as [[= -> ->]|Hin]; [|now elim (IH Hin)].
  now rewrite String.eqb_refl.
Qed.

(** The keys of the result other than [__proto__] are exactly the joined
    chains, behind [front]. *)
Lemma toDot_keys ps div pre r key :
  toDot (VObj ps) div pre = Ok r ->
  (In key (keys r) ->
   exists cv, In cv (leaf_paths ps)
              /\ key = key_prefix div pre ++ join div (fst cv))
  /\ (key <> "__proto__" ->
      (exists cv, In cv (leaf_paths ps)
                  /\ key = key_prefix div pre ++ join div (fst cv)) ->
      In key (keys r)).
Proof.
  intros H. destruct (toDot_spec _ _ _ _ H) as [L [_ [K _]]]. split.
  - intros Hin. destruct (K key Hin) as [Ha _].
    unfold keys, leaf_assignments in Ha. rewrite map_map in Ha.
    apply in_map_iff in Ha. destruct Ha as [cv [<- Hcv]]. now exists cv.
  - intros Hkey [cv [Hcv ->]]. apply in_keys_obj_get. rewrite (L _ Hkey).
    apply (last_assigned_some _ _ (snd cv)).
    unfold leaf_assignments. apply in_map_iff. now exists cv.
Qed.

(** ** The claims about the flattener *)

(** C2: [toDot] recurses into the values that are plain nested mappings,
    joining the keys with the separator, and assigns every other value as
    a leaf under its joined path, but for one name: a leaf whose joined
    path is [__proto__] is not assigned, [toDot({__proto__:5, a:1})]
    returns [{a:1}] where the flat mapping holds 5 under [__proto__].
    Whenever [toDot] returns for an object, its result holds under every
    other name the leaf of the specification, has distinct keys and leaves
    only; for every object none of whose chains joins to [__proto__] it
    returns, and the result is the flat mapping of the specification
    under every name.  The two examples of the specification hold. *)
Theorem toDot_flattens_but_for_proto :
  (toDot1 (VObj [("__proto__", VNum 5); ("a", VNum 1)]) = Ok [("a", VNum 1)]
   /\ last_assigned
        (leaf_assignments "." "" [("__proto__", VNum 5); ("a", VNum 1)])
        "__proto__"
      = Some (VNum 5))
  /\ (forall ps div,
         (forall r,
             toDot (VObj ps) div None = Ok r ->
             (forall key, key <> "__proto__" ->
                          obj_get r key
                          = last_assigned (leaf_assignments div "" ps) key)
             /\ NoDup (keys r)
             /\ Forall (fun kv => isPlainObject (snd kv) = false) r)
         /\ (proto_free (leaf_assignments div "" ps) ->
             exists r,
               toDot (VObj ps) div None = Ok r
               /\ forall key,
                   obj_get r key
                   = last_assigned (leaf_assignments div "" ps) key)
         /\ (forall k x, leaf_paths [(k, x)]
                         = if isPlainObject x
                           then map (fun cv => (k :: fst cv, snd cv)) (leaves x)
                           else [([k], x)]))
  /\ toDot1 (VObj [("a", VObj [("b", VNum 1); ("c", VNum 2)])])
     = Ok [("a.b", VNum 1); ("a.c", VNum 2)]
  /\ toDot1 (VObj [("a", VArr [VNum 1; VNum 2]); ("b", VNull)])
     = Ok [("a", VArr [VNum 1; VNum 2]); ("b", VNull)].
Proof.
  split; [split; reflexivity|]. split; [|split; reflexivity].
  intros ps div. split; [|split].
  - intros r H. destruct (toDot_spec _ _ _ _ H) as [L [N [_ V]]]. auto.
  - exact (toDot_proto_free ps div None).
  - intros k x. unfold leaf_paths. rewrite leaves_cons.
    cbn [leaves]. rewrite List.app_nil_r.
    destruct (isPlainObject x) eqn:E; [reflexivity|].
    now rewrite (leaves_leaf _ E).
Qed.

Lemma toDot_flattens_but_for_proto_example :
  proto_free (leaf_assignments "." ""
                [("a", VObj [("b", VNum 1); ("c", VNum 2)])])
  /\ exists r,
      toDot (VObj [("a", VObj [("b", VNum 1); ("c", VNum 2)])]) "." None = Ok r
      /\ forall key,
          obj_get r key
          = last_assigned
              (leaf_assignments "." ""
                 [("a", VObj [("b", VNum 1); ("c", VNum 2)])]) key.
Proof.
  assert (H : proto_free (leaf_assignments "." ""
                            [("a", VObj [("b", VNum 1); ("c", VNum 2)])])).
  { repeat constructor; discriminate. }
  split; [exact H|].
  exact (proj1 (proj2 (proj1 (proj2 toDot_flattens_but_for_proto)
                         [("a", VObj [("b", VNum 1); ("c", VNum 2)])] "."))
           H).
Defined.

(** C5, the claim as stated fails: a top-level array is not a mapping, yet
    [toDot] returns a result for it, the elements under their indices. *)
Lemma toDot_array_is_accepted :
  isPlainObject (VArr [VNum 1; VNum 2]) = false
  /\ toDot1 (VArr [VNum 1; VNum 2]) = Ok [("0", VNum 1); ("1", VNum 2)].
Proof. split; reflexivity. Qed.

(** C5, amended: every input whose [typeof] is not ['object'] (a number such
    as 5, a string, a boolean, [undefined], a function) makes [toDot] throw
    its own error and return nothing; [null] passes that check and fails in
    [Object.keys] with a [TypeError]; every array is accepted, and one
    without plain objects among its elements comes back as the mapping from
    its indices to its elements. *)
Theorem toDot_rejects_what_typeof_rejects :
  (forall v div pre,
      typeof v <> "object" -> toDot v div pre = Throw invalid_object)
  /\ (forall div pre, toDot VNull div pre = Throw keys_of_null)
  /\ (forall l div pre, exists r, toDot (VArr l) div pre = Ok r)
  /\ (forall l div,
         Forall (fun x => isPlainObject x = false) l ->
         toDot (VArr l) div None = Ok (assign_all [] (arr_props 0 l))).
Proof.
  split; [|split; [|split]].
  - intros v div pre H. destruct v; try reflexivity; now elim H.
  - reflexivity.
  - intros l div pre. rewrite toDot_arr. apply each_elem_total.
  - intros l div H. rewrite toDot_arr, each_elem_flat by exact H.
    cbn [key_prefix append].
    rewrite (map_ext _ (fun kv => kv)) by (now intros []).
    now rewrite map_id.
Qed.

Lemma toDot_rejects_five :
  typeof (VNum 5) <> "object" /\ toDot1 (VNum 5) = Throw invalid_object.
Proof.
  split; [discriminate|].
  apply (proj1 toDot_rejects_what_typeof_rejects). discriminate.
Defined.

(** C7, the claim as stated fails: an empty string given as prefix is not
    taken as an absent one, the keys get the separator in front; the
    recursion itself passes such a prefix below a property named by the
    empty string. *)
Lemma toDot_empty_prefix_leads_with_separator :
  toDot (VObj [("a", VNum 1)]) "." (Some "") = Ok [(".a", VNum 1)]
  /\ toDot1 (VObj [("", VObj [("a", VNum 1)])]) = Ok [(".a", VNum 1)].
Proof. split; reflexivity. Qed.

(** C7, amended: for a nested plain object under key [k], [toDot] recurses
    with the accumulated path [prefix + separator + k] when a prefix is
    given, whatever string it is, and with just [k] when the prefix is
    absent; every key of a result is a chain of keys joined by the
    separator, with nothing in front when the prefix is absent and with
    [prefix + separator] in front otherwise, and every such string other
    than [__proto__] is a key of the result. *)
Theorem toDot_accumulates_prefix :
  forall ps div,
    (forall k inner pre,
        toDot (VObj ((k, VObj inner) :: ps)) div pre
        = (r <- toDot (VObj inner) div (Some (accumulated div pre k)) ;;
           it <- obj_assign [] r ;;
           each_prop div (key_prefix div pre) ps it))
    /\ (forall r key,
           toDot (VObj ps) div None = Ok r ->
           (In key (keys r) ->
            exists cv, In cv (leaf_paths ps) /\ key = join div (fst cv))
           /\ (key <> "__proto__" ->
               (exists cv, In cv (leaf_paths ps) /\ key = join div (fst cv)) ->
               In key (keys r)))
    /\ (forall pre r key,
           toDot (VObj ps) div (Some pre) = Ok r ->
           (In key (keys r) ->
            exists cv, In cv (leaf_paths ps)
                       /\ key = pre ++ div ++ join div (fst cv))
           /\ (key <> "__proto__" ->
               (exists cv, In cv (leaf_paths ps)
                           /\ key = pre ++ div ++ join div (fst cv)) ->
               In key (keys r))).
Proof.
  intros ps div. split; [|split].
  - intros k inner pre. rewrite toDot_obj. cbn [each_prop isPlainObject].
    destruct pre as [p|]; cbn [key_prefix accumulated];
      [now rewrite append_assoc | reflexivity].
  - intros r key H. exact (toDot_keys ps div None r key H).
  - intros pre r key H.
    destruct (toDot_keys ps div (Some pre) r key H) as [A B].
    cbn [key_prefix] in A, B. split.
    + intros Hin. destruct (A Hin) as [cv [Hcv ->]].
      exists cv. split; [exact Hcv | apply append_assoc].
    + intros Hkey [cv [Hcv ->]]. apply B; [exact Hkey|].
      exists cv. split; [exact Hcv | symmetry; apply append_assoc].
Qed.

Lemma toDot_accumulates_prefix_example :
  toDot (VObj [("a", VObj [("b", VNum 1)])]) "." (Some "p")
  = Ok [("p.a.b", VNum 1)]
  /\ exists cv,
      In cv (leaf_paths [("a", VObj [("b", VNum 1)])])
      /\ "p.a.b" = "p" ++ "." ++ join "." (fst cv).
Proof.
  split; [reflexivity|].
  apply (proj1 (proj2 (proj2 (toDot_accumulates_prefix
                                [("a", VObj [("b", VNum 1)])] "."))
                  "p" [("p.a.b", VNum 1)] "p.a.b" eq_refl)).
  now left.
Defined.

(** C8: a plain object none of whose values is a nested plain object is
    returned unchanged by [toDot] without prefix, and flattening the result
    once more gives the same, but for one name: an own key [__proto__] is
    lost, [toDot({__proto__:5, a:1})] returns [{a:1}].  For every such
    object without that key (its keys distinct and in enumeration order, as
    those of every object are) the result is the object itself. *)
Theorem toDot_flat_unchanged_but_for_proto :
  (Forall (fun kv => isPlainObject (snd kv) = false)
          [("__proto__", VNum 5); ("a", VNum 1)]
   /\ toDot1 (VObj [("__proto__", VNum 5); ("a", VNum 1)])
      = Ok [("a", VNum 1)])
  /\ forall ps div,
      Forall (fun kv => isPlainObject (snd kv) = false) ps ->
      NoDup (keys ps) ->
      key_order ps ->
      ~ In "__proto__" (keys ps) ->
      toDot (VObj ps) div None = Ok ps
      /\ (r <- toDot (VObj ps) div None ;; toDot (VObj r) div None)
         = toDot (VObj ps) div None.
Proof.
  split; [split; [repeat constructor | reflexivity]|].
  intros ps div Hflat Hnd Hord Hni.
  assert (E : toDot (VObj ps) div None = Ok ps).
  { rewrite toDot_obj. cbn [key_prefix].
    rewrite each_prop_flat by assumption.
    now rewrite (assign_all_in_order ps []). }
  split; [exact E|]. rewrite E. cbn [bind]. exact E.
Qed.

Lemma toDot_flat_unchanged_example :
  toDot (VObj [("a", VArr [VNum 1; VNum 2]); ("b", VNull)]) "." None
  = Ok [("a", VArr [VNum 1; VNum 2]); ("b", VNull)].
Proof.
  apply (proj2 toDot_flat_unchanged_but_for_proto
           [("a", VArr [VNum 1; VNum 2]); ("b", VNull)] ".").
  - repeat constructor.
  - repeat constructor; simpl; intuition discriminate.
  - repeat constructor.
  - simpl. intuition discriminate.
Defined.

(* ================================================================== *)
(** * Properties of the backing collection *)
(* ================================================================== *)

Lemma doc_get_set_same d k v : obj_get (doc_set d k v) k = Some v.
Proof.
  induction d as [|[k' v'] d IH]; simpl.
  - now rewrite String.eqb_refl.
  - destruct (k' =? k) eqn:E; simpl.
    + now rewrite String.eqb_refl.
    + now rewrite E.
Qed.

Lemma doc_get_set_other d k k' v :
  k <> k' -> obj_get (doc_set d k v) k' = obj_get d k'.
Proof.
  intros Hne. induction d as [|[k0 v0] d IH]; simpl.
  - apply String.eqb_neq in Hne. now rewrite Hne.
  - destruct (k0 =? k) eqn:E; simpl.
    + apply String.eqb_eq in E. subst k0.
      apply String.eqb_neq in Hne. now rewrite Hne.
    + now rewrite IH.
Qed.

Lemma key_index_sound k i : key_index k = Some i -> index_key i = k.
Proof.
  unfold key_index. destruct (NilEmpty.uint_of_string k); [|discriminate].
  destruct (index_key _ =? k) eqn:E; [|discriminate].
  intros [= <-]. now apply String.eqb_eq.
Qed.

Lemma key_index_inj k k' i :
  key_index k = Some i -> key_index k' = Some i -> k = k'.
Proof.
  intros H H'. apply key_index_sound in H, H'. congruence.
Qed.

Lemma nth_error_arr_set_same l i v : nth_error (arr_set l i v) i = Some v.
Proof.
  revert l. induction i as [|i IH]; intros [|x l]; simpl; auto.
Qed.

Lemma nth_error_arr_set_other l i j v y :
  i <> j -> nth_error l j = Some y -> nth_error (arr_set l i v) j = Some y.
Proof.
  revert l j. induction i as [|i IH]; intros [|x l] [|j] Hne H; simpl in *;
    try discriminate; try congruence; auto.
Qed.

Lemma independent_sym p q : independent p q = independent q p.
Proof. unfold independent. apply andb_comm. Qed.

Lemma independent_cons k p k' q :
  independent (k :: p) (k' :: q) = true ->
  k <> k' \/ (k = k' /\ independent p q = true).
Proof.
  unfold independent. simpl. rewrite (String.eqb_sym k' k).
  destruct (k =? k') eqn:E; simpl.
  - apply String.eqb_eq in E. auto.
  - apply String.eqb_neq in E. auto.
Qed.

(** Writing a path leaves what is under every independent path alone. *)
Lemma set_field_frame p v :
  forall cur new q x,
    set_field p v (Some cur) = Some new ->
    independent p q = true ->
    get_field q cur = Some x -> get_field q new = Some x.
Proof.
  induction p as [|k p IH]; intros cur new q x Hset Hind Hget.
  - discriminate.
  - destruct q as [|k' q]; [discriminate|].
    apply independent_cons in Hind.
    destruct cur; simpl in Hset; try discriminate.
    + (* array *)
      destruct (key_index k) as [i|] eqn:Ek; [|discriminate].
      destruct (set_field p v (nth_error elems i)) as [r|] eqn:Er;
        [|discriminate].
      injection Hset as <-. simpl in *.
      destruct (key_index k') as [j|] eqn:Ek'; [|discriminate].
      destruct (nth_error elems j) as [y|] eqn:Ey; [|discriminate].
      destruct Hind as [Hne|[-> Hind]].
      * rewrite (nth_error_arr_set_other _ i j r y); auto.
        intros ->. apply Hne. eapply key_index_inj; eauto.
      * assert (j = i) by congruence. subst j.
        rewrite nth_error_arr_set_same. rewrite Ey in Er. eauto.
    + (* object *)
      destruct (set_field p v (obj_get props k)) as [r|] eqn:Er;
        [|discriminate].
      injection Hset as <-. simpl in *.
      destruct Hind as [Hne|[-> Hind]].
      * now rewrite doc_get_set_other.
      * rewrite doc_get_set_same.
        destruct (obj_get props k') as [y|] eqn:Ey; [|discriminate].
        eauto.
Qed.

(** A written path holds the written value. *)
Lemma set_field_get p v :
  forall cur new, set_field p v cur = Some new -> get_field p new = Some v.
Proof.
  induction p as [|k p IH]; intros cur new Hset; simpl in *.
  - congruence.
  - destruct cur as [cur|].
    + destruct cur; try discriminate.
      * destruct (key_index k) as [i|] eqn:Ek; [|discriminate].
        destruct (set_field p v (nth_error elems i)) as [r|] eqn:Er;
          [|discriminate].
        injection Hset as <-. rewrite nth_error_arr_set_same. eauto.
      * destruct (set_field p v (obj_get props k)) as [r|] eqn:Er;
          [|discriminate].
        injection Hset as <-. simpl. rewrite doc_get_set_same. eauto.
    + destruct (set_field p v None) as [r|] eqn:Er; [|discriminate].
      injection Hset as <-. simpl. rewrite String.eqb_refl. eauto.
Qed.

Lemma set_path_frame d p v d' q x :
  set_path d p v = Some d' -> independent p q = true ->
  get_path d q = Some x -> get_path d' q = Some x.
Proof.
  unfold set_path, get_path.
  destruct (set_field p v (Some (VObj d))) as [[]|] eqn:E; try discriminate.
  intros [= <-]. eapply set_field_frame; eauto.
Qed.

Lemma set_path_get d p v d' :
  set_path d p v = Some d' -> get_path d' p = Some v.
Proof.
  unfold set_path, get_path.
  destruct (set_field p v (Some (VObj d))) as [[]|] eqn:E; try discriminate.
  intros [= <-]. eapply set_field_get; eauto.
Qed.

Lemma write_all_none fields : write_all fields None = None.
Proof. induction fields; simpl; auto. Qed.

Lemma write_all_frame fields :
  forall d d' q x,
    write_all fields (Some d) = Some d' ->
    (forall k, In k (keys fields) -> independent (split_path k) q = true) ->
    get_path d q = Some x -> get_path d' q = Some x.
Proof.
  induction fields as [|[k v] fields IH]; intros d d' q x Hw Hind Hget.
  - simpl in Hw. congruence.
  - simpl in Hw. destruct (set_path d (split_path k) v) as [d1|] eqn:E.
    + eapply IH; eauto.
      * intros k' Hk'. apply Hind. now right.
      * eapply set_path_frame; eauto. apply Hind. now left.
    + fold (write_all fields None) in Hw. rewrite write_all_none in Hw.
      discriminate.
Qed.

Lemma write_all_sets fields :
  forall d d',
    conflict_free (paths_of fields) = true ->
    write_all fields (Some d) = Some d' ->
    forall k v, In (k, v) fields -> get_path d' (split_path k) = Some v.
Proof.
  induction fields as [|[k0 v0] fields IH]; intros d d' Hcf Hw k v Hin.
  - destruct Hin.
  - simpl in Hcf. apply andb_prop in Hcf. destruct Hcf as [Hk0 Hcf].
    simpl in Hw. destruct (set_path d (split_path k0) v0) as [d1|] eqn:E.
    + destruct Hin as [[= -> ->]|Hin].
      * eapply write_all_frame; eauto.
        -- intros k' Hk'. rewrite independent_sym.
           rewrite forallb_forall in Hk0. apply Hk0.
           unfold paths_of. unfold keys in Hk'. rewrite in_map_iff in *.
           destruct Hk' as [kv [<- Hkv]]. now exists kv.
        -- eapply set_path_get; eauto.
      * eapply IH; eauto.
    + fold (write_all fields None) in Hw. rewrite write_all_none in Hw.
      discriminate.
Qed.

Lemma set_fields_write_all d fields d' :
  set_fields d fields = Some d' ->
  conflict_free (paths_of fields) = true
  /\ write_all fields (Some d) = Some d'.
Proof.
  unfold set_fields.
  destruct (forallb path_ok (paths_of fields)); simpl; [|discriminate].
  destruct (conflict_free (paths_of fields)); [|discriminate].
  auto.
Qed.


Lemma set_fields_sets d fields d' k v :
  set_fields d fields = Some d' ->
  In (k, v) fields -> get_path d' (split_path k) = Some v.
Proof.
  intros H. apply set_fields_write_all in H. destruct H as [Hcf H].
  eapply write_all_sets; eauto.
Qed.

Lemma first_match_nth filter c i d :
  first_match filter c = Some (i, d) -> nth_error c i = Some d.
Proof.
  revert i. induction c as [|e c IH]; intros i; simpl; [discriminate|].
  destruct (matches filter e).
  - now intros [= <- <-].
  - destruct (first_match filter c) as [[j dj]|]; [|discriminate].
    intros [= <- <-]. simpl. now apply IH.
Qed.


Lemma nth_error_replace_other {A} (l : list A) i j x :
  i <> j -> nth_error (replace_nth i x l) j = nth_error l j.
Proof.
  revert i j. induction l as [|z l IH]; intros [|i] [|j] H; simpl; auto.
  congruence.
Qed.










Lemma get_path_top d k : get_path d [k] = obj_get d k.
Proof. unfold get_path. simpl. now destruct (obj_get d k). Qed.

Lemma matches_id d id : obj_get d "id" = Some id -> matches [("id", id)] d = true.
Proof.
  intros H. unfold matches. simpl. rewrite H, value_eqb_refl. reflexivity.
Qed.

Lemma first_match_replace filter c :
  forall i d d',
    first_match filter c = Some (i, d) -> matches filter d' = true ->
    first_match filter (replace_nth i d' c) = Some (i, d').
Proof.
  induction c as [|e c IH]; intros i d d' H Hm; simpl in H; [discriminate|].
  destruct (matches filter e) eqn:Ee.
  - injection H as <- <-. simpl. now rewrite Hm.
  - destruct (first_match filter c) as [[j dj]|] eqn:Ef; [|discriminate].
    injection H as <- <-. simpl. rewrite Ee.
    now rewrite (IH j dj d' eq_refl Hm).
Qed.

Lemma first_match_app_new filter c d :
  first_match filter c = None -> matches filter d = true ->
  first_match filter (c ++ [d])%list = Some (List.length c, d).
Proof.
  induction c as [|e c IH]; simpl; intros H Hm.
  - now rewrite Hm.
  - destruct (matches filter e); [discriminate|].
    destruct (first_match filter c) as [[j dj]|]; [discriminate|].
    now rewrite IH.
Qed.

Lemma first_match_app_old filter c l i d :
  first_match filter c = Some (i, d) ->
  first_match filter (c ++ l)%list = Some (i, d).
Proof.
  revert i. induction c as [|e c IH]; simpl; intros i H; [discriminate|].
  destruct (matches filter e); [exact H|].
  destruct (first_match filter c) as [[j dj]|]; [|discriminate].
  injection H as <- <-. now rewrite (IH j eq_refl).
Qed.

(** After an accepted upsert on [{id}] whose [$set] names [id], the document
    the reply carries is the one a lookup of that [id] finds. *)
Lemma findOneAndUpdate_then_findOne c id fields c' doc :
  In ("id", id) fields ->
  findOneAndUpdate c [("id", id)] (USet (VObj fields)) true = (c', Done doc) ->
  findOne c' [("id", id)] = Done doc.
Proof.
  intros Hin. unfold findOneAndUpdate, findOne. cbn [set_operand].
  destruct (first_match [("id", id)] c) as [[i d]|] eqn:Ef.
  - destruct (set_fields d fields) as [d'|] eqn:Es; [|discriminate].
    intros [= <- <-].
    assert (Hid : obj_get d' "id" = Some id).
    { rewrite <- get_path_top. exact (set_fields_sets _ _ _ _ _ Es Hin). }
    now rewrite (first_match_replace _ _ _ _ d' Ef (matches_id _ _ Hid)).
  - destruct (set_fields [("id", id)] fields) as [d'|] eqn:Es; [|discriminate].
    intros [= <- <-].
    assert (Hid : obj_get d' "id" = Some id).
    { rewrite <- get_path_top. exact (set_fields_sets _ _ _ _ _ Es Hin). }
    now rewrite (first_match_app_new _ _ d' Ef (matches_id _ _ Hid)).
Qed.

Lemma dotless_dotted a b : dotless (a ++ "." ++ b) = false.
Proof.
  induction a as [|c a IH]; [reflexivity|].
  change (dotless (String c (a ++ "." ++ b)) = false).
  cbn [dotless]. rewrite IH. apply andb_false_r.
Qed.

(** Below another top-level name no chain joins to a name without dots. *)
Lemma nested_never_assigns k x name :
  dotless name = true -> k <> name ->
  last_assigned
    (map (fun cv => ("" ++ join "." (k :: fst cv), snd cv)) (leaves x)) name
  = None.
Proof.
  intros Hd Hne. apply last_assigned_none. intros kv Hkv.
  apply in_map_iff in Hkv. destruct Hkv as [[c v] [<- _]]. cbn [fst append].
  destruct c as [|k2 c]; [exact Hne|].
  intros E. rewrite join_cons in E by discriminate.
  rewrite <- E, dotless_dotted in Hd. discriminate.
Qed.

Lemma last_assigned_absent ps name :
  dotless name = true -> ~ In name (keys ps) ->
  last_assigned (leaf_assignments "." "" ps) name = None.
Proof.
  intros Hd. induction ps as [|[k x] ps IH]; intros Hni; [reflexivity|].
  simpl in Hni. rewrite leaf_assignments_cons, last_assigned_app.
  rewrite IH by tauto. apply nested_never_assigns; [exact Hd | tauto].
Qed.

Lemma last_assigned_top ps name v :
  dotless name = true -> NoDup (keys ps) ->
  obj_get ps name = Some v -> isPlainObject v = false ->
  last_assigned (leaf_assignments "." "" ps) name = Some v.
Proof.
  intros Hd. induction ps as [|[k x] ps IH]; intros Hnd Hget Hleaf;
    [discriminate|].
  inversion Hnd as [|? ? Hni Hnd']; subst.
  rewrite leaf_assignments_cons, last_assigned_app. simpl in Hget.
  destruct (k =? name) eqn:E.
  - apply String.eqb_eq in E. injection Hget as ->. subst k.
    rewrite last_assigned_absent by assumption.
    rewrite (leaves_leaf _ Hleaf). simpl. now rewrite String.eqb_refl.
  - now rewrite IH.
Qed.





(** ** The claims about the zone store *)






(* ================================================================== *)
(** * Further properties of the flattener *)
(* ================================================================== *)

(** X2: [toDot] throws exactly for the values whose [typeof] is not
    ['object'] and for [null], and returns a mapping for no other value
    than a plain object, an array or another object; it returns for every
    array, and for every object none of whose chains joins to the name
    [__proto__]: nothing else nested inside the input stops it.  (A run
    that replaces the prototype of the result is not followed further, it
    ends as [Beyond].) *)
Theorem toDot_returns_iff :
  forall v div pre,
    ((exists e, toDot v div pre = Throw e)
     <-> (typeof v <> "object" \/ v = VNull))
    /\ ((exists r, toDot v div pre = Ok r) ->
        typeof v = "object" /\ v <> VNull)
    /\ (typeof v = "object" -> v <> VNull ->
        (forall ps,
            v = VObj ps \/ (exists c, v = VInst c ps) ->
            proto_free (leaf_assignments div (key_prefix div pre) ps)) ->
        exists r, toDot v div pre = Ok r).
Proof.
  intros v div pre. split; [|split].
  - split.
    + intros [e H].
      destruct (string_dec (typeof v) "object") as [Ht|Ht]; [|now left].
      destruct v; try discriminate; auto; exfalso.
      * rewrite toDot_arr, each_elem_as_props in H.
        exact (each_prop_no_throw div (VObj (arr_props 0 elems)) _ _ _ H).
      * rewrite toDot_obj in H.
        exact (each_prop_no_throw div (VObj props) _ _ _ H).
      * rewrite toDot_inst in H.
        exact (each_prop_no_throw div (VObj props) _ _ _ H).
    + intros [Ht| ->]; [|eexists; reflexivity].
      exists invalid_object. destruct v; try reflexivity; now elim Ht.
  - intros [r H].
    destruct v; try (simpl in H; discriminate H); split;
      try reflexivity; discriminate.
  - intros Ht Hn Hfree. destruct v; try discriminate; try congruence.
    + rewrite toDot_arr. apply each_elem_total.
    + destruct (toDot_proto_free props div pre) as [r [E _]]; eauto.
    + rewrite toDot_inst, <- toDot_obj.
      destruct (toDot_proto_free props div pre) as [r [E _]]; eauto.
Qed.

Lemma toDot_returns_iff_example :
  exists r, toDot (VObj [("a", VObj [("b", VNum 1)]); ("c", VNull)]) "." None
            = Ok r.
Proof.
  apply (proj2 (proj2 (toDot_returns_iff
                         (VObj [("a", VObj [("b", VNum 1)]); ("c", VNull)])
                         "." None))).
  - reflexivity.
  - discriminate.
  - intros ps [[= <-]|[c H]]; [|discriminate H].
    repeat constructor; discriminate.
Defined.

(** X3: an array given at the top is flattened as the object of its
    indices, and a non-plain object as the plain object of its own
    properties. *)
Theorem toDot_array_as_index_object :
  forall div pre,
    (forall l, toDot (VArr l) div pre = toDot (VObj (arr_props 0 l)) div pre)
    /\ (forall c ps, toDot (VInst c ps) div pre = toDot (VObj ps) div pre).
Proof.
  intros div pre. split.
  - intros l. now rewrite toDot_arr, toDot_obj, each_elem_as_props.
  - intros c ps. now rewrite toDot_inst, toDot_obj.
Qed.

Lemma each_prop_app div pre ps qs :
  forall it,
    each_prop div pre (ps ++ qs)%list it
    = (it' <- each_prop div pre ps it ;; each_prop div pre qs it').
Proof.
  induction ps as [|[k x] ps IH]; intros it; [reflexivity|].
  change (((k, x) :: ps) ++ qs)%list with ((k, x) :: (ps ++ qs))%list.
  cbn [each_prop]. destruct (isPlainObject x).
  - destruct (toDot x div _) as [r| |]; cbn [bind]; try reflexivity.
    destruct (obj_assign it r) as [it1| |]; cbn [bind]; try reflexivity.
    apply IH.
  - destruct (js_set it _ x) as [it1| |]; cbn [bind]; try reflexivity.
    apply IH.
Qed.

(** X4: a property whose value is an empty plain object contributes no key:
    flattening drops it, wherever it stands. *)
Theorem toDot_drops_empty_objects :
  forall ps qs k div pre,
    toDot (VObj (ps ++ (k, VObj []) :: qs)) div pre
    = toDot (VObj (ps ++ qs)) div pre.
Proof.
  intros ps qs k div pre. rewrite !toDot_obj, !each_prop_app.
  destruct (each_prop div _ ps []) as [it| |]; cbn [bind]; reflexivity.
Qed.

(** X5: whenever [toDot] returns for an object, the value it stores under
    a key other than [__proto__] is the leaf of the last chain, in
    enumeration order, that joins to that key, and a key no chain joins to
    is absent; so of a dotted key and a nested path that collide the later
    one wins. *)
Theorem toDot_last_leaf_wins :
  forall ps div pre r,
    toDot (VObj ps) div pre = Ok r ->
    forall key,
      key <> "__proto__" ->
      obj_get r key
      = last_assigned (leaf_assignments div (key_prefix div pre) ps) key.
Proof.
  intros ps div pre r H key Hkey.
  now apply (proj1 (toDot_spec _ _ _ _ H)).
Qed.

Lemma toDot_last_leaf_wins_example :
  obj_get [("a.b", VNum 2)] "a.b"
  = last_assigned
      (leaf_assignments "." ""
         [("a.b", VNum 1); ("a", VObj [("b", VNum 2)])]) "a.b".
Proof.
  apply (toDot_last_leaf_wins
           [("a.b", VNum 1); ("a", VObj [("b", VNum 2)])] "." None).
  - reflexivity.
  - discriminate.
Defined.

(* ================================================================== *)
(** * Further properties of the zone store *)
(* ================================================================== *)

(** X7: for a record none of whose values is a nested plain object and
    none of whose keys is [__proto__] (the keys distinct and in enumeration
    order, as those of every object are), [save] and [update] are the same
    operation. *)
Theorem save_is_update_on_flat_records :
  forall table ps,
    Forall (fun kv => isPlainObject (snd kv) = false) ps ->
    NoDup (keys ps) ->
    key_order ps ->
    ~ In "__proto__" (keys ps) ->
    Zone.save table (VObj ps) = Zone.update table (VObj ps).
Proof.
  intros table ps Hflat Hnd Hord Hni. unfold Zone.save, Zone.update, toDot1.
  rewrite toDot_obj. cbn [key_prefix].
  rewrite each_prop_flat by assumption.
  rewrite (assign_all_in_order ps []) by assumption. reflexivity.
Qed.

Lemma save_is_update_on_flat_records_example :
  Zone.save [[("id", VNum 1); ("a", VNum 1)]]
            (VObj [("id", VNum 1); ("a", VArr [VNum 2])])
  = Zone.update [[("id", VNum 1); ("a", VNum 1)]]
                (VObj [("id", VNum 1); ("a", VArr [VNum 2])]).
Proof.
  apply save_is_update_on_flat_records.
  - repeat constructor.
  - repeat constructor; simpl; intuition discriminate.
  - repeat constructor.
  - simpl. intuition discriminate.
Defined.

(** X8: [save] and [update] throw a [TypeError] for [null] and [undefined],
    from reading [data.id] before anything else, and [save] throws the
    [toDot] error for every other value that is no object; in both cases
    before the collection is called. *)
Theorem save_and_update_exceptions :
  forall table,
    (forall data,
        data = VNull \/ data = VUndef ->
        Zone.save table data
        = Throw (JsTypeError "Cannot read properties of undefined or null")
        /\ Zone.update table data
           = Throw (JsTypeError "Cannot read properties of undefined or null"))
    /\ (forall data,
           typeof data <> "object" -> data <> VUndef ->
           Zone.save table data = Throw invalid_object).
Proof.
  intros table. split.
  - intros data [->| ->]; split; reflexivity.
  - intros data Ht Hu.
    destruct data; try reflexivity; try (now elim Ht); now elim Hu.
Qed.

Lemma save_and_update_exceptions_example :
  typeof (VNum 5) <> "object" /\ VNum 5 <> VUndef
  /\ Zone.save [[("id", VNum 1)]] (VNum 5) = Throw invalid_object.
Proof.
  split; [discriminate|]. split; [discriminate|].
  apply (proj2 (save_and_update_exceptions [[("id", VNum 1)]]));
    discriminate.
Defined.

Lemma length_replace_nth {A} (l : list A) i x :
  List.length (replace_nth i x l) = List.length l.
Proof.
  revert i. induction l as [|y l IH]; intros [|i]; simpl; auto.
Qed.

(** What one [findOneAndUpdate] can do to a collection. *)
Lemma findOneAndUpdate_shape c filter u upsert :
  let c' := fst (findOneAndUpdate c filter u upsert) in
  (List.length c <= List.length c' <= S (List.length c))
  /\ forall i d,
      nth_error c i = Some d ->
      nth_error c' i = Some d \/ first_match filter c = Some (i, d).
Proof.
  cbv zeta. unfold findOneAndUpdate.
  destruct (set_operand u) as [fields|]; cbn [fst]; [|split; [lia | auto]].
  destruct (first_match filter c) as [[j dj]|] eqn:Ef.
  - destruct (set_fields dj fields) as [dj'|]; cbn [fst]; [|split; [lia|auto]].
    split; [rewrite length_replace_nth; lia|].
    intros i d Hi. destruct (Nat.eq_dec j i) as [->|Hne].
    + right. apply first_match_nth in Ef. congruence.
    + left. now rewrite nth_error_replace_other.
  - destruct upsert; cbn [fst]; [|split; [lia|auto]].
    destruct (set_fields filter fields) as [new|]; cbn [fst];
      [|split; [lia|auto]].
    split; [rewrite length_app; simpl; lia|].
    intros i d Hi. left. rewrite nth_error_app1; [exact Hi|].
    apply nth_error_Some. congruence.
Qed.

(** X9: one [save] or [update] never removes a document, adds at most one,
    and leaves every document as it is except the first one whose [id]
    equals the record's. *)
Theorem save_and_update_touch_one_document :
  forall table data id table' r,
    get_prop data "id" = Ok id ->
    Zone.save table data = Ok (table', r)
    \/ Zone.update table data = Ok (table', r) ->
    (List.length table <= List.length table' <= S (List.length table))
    /\ forall i d,
        nth_error table i = Some d ->
        nth_error table' i = Some d
        \/ first_match [("id", id)] table = Some (i, d).
Proof.
  intros table data id table' r Hid [H|H].
  - unfold Zone.save in H. rewrite Hid in H. cbn [bind] in H.
    destruct (toDot1 data) as [patch| |]; try discriminate. cbn [bind] in H.
    injection H as H.
    pose proof (findOneAndUpdate_shape table [("id", id)]
                  (USet (VObj patch)) true) as S.
    cbn zeta in S. rewrite H in S. exact S.
  - unfold Zone.update in H. rewrite Hid in H. cbn [bind] in H.
    injection H as H.
    pose proof (findOneAndUpdate_shape table [("id", id)] (USet data) true)
      as S.
    cbn zeta in S. rewrite H in S. exact S.
Qed.

Lemma save_and_update_touch_one_document_example :
  nth_error [[("id", VNum 1); ("a", VNum 1)]; [("id", VNum 2)]] 1
  = Some [("id", VNum 2)]
  /\ (nth_error [[("id", VNum 1); ("a", VNum 9)]; [("id", VNum 2)]] 1
      = Some [("id", VNum 2)]
      \/ first_match [("id", VNum 1)]
           [[("id", VNum 1); ("a", VNum 1)]; [("id", VNum 2)]]
         = Some (1, [("id", VNum 2)])).
Proof.
  split; [reflexivity|].
  apply (proj2 (save_and_update_touch_one_document
                  [[("id", VNum 1); ("a", VNum 1)]; [("id", VNum 2)]]
                  (VObj [("id", VNum 1); ("a", VNum 9)]) (VNum 1)
                  [[("id", VNum 1); ("a", VNum 9)]; [("id", VNum 2)]]
                  (Done (VObj [("id", VNum 1); ("a", VNum 9)]))
                  eq_refl (or_introl eq_refl))).
  reflexivity.
Defined.


(** X10: when [save] of a record with distinct keys and a scalar [id]
    reports success, a [get] of that [id] afterwards returns the very
    document [save] reported, whether it was updated or newly made. *)
Theorem save_then_get :
  forall table ps id table' doc,
    obj_get ps "id" = Some id ->
    isPlainObject id = false ->
    NoDup (keys ps) ->
    Zone.save table (VObj ps) = Ok (table', Done doc) ->
    Zone.get table' id = Done doc.
Proof.
  intros table ps id table' doc Hid Hleaf Hnd H.
  unfold Zone.save in H. cbn [get_prop prop] in H.
  rewrite Hid in H. cbn [bind] in H.
  destruct (toDot1 (VObj ps)) as [patch| |] eqn:Hpatch; try discriminate.
  cbn [bind] in H. injection H as H. unfold Zone.get.
  eapply findOneAndUpdate_then_findOne; [|exact H].
  apply obj_get_In. unfold toDot1 in Hpatch.
  rewrite (proj1 (toDot_spec _ _ _ _ Hpatch)) by discriminate.
  cbn [key_prefix]. now apply last_assigned_top.
Qed.

Lemma save_then_get_example :
  Zone.get [[("id", VNum 1); ("a", VObj [("x", VNum 99); ("y", VNum 2)])]]
           (VNum 1)
  = Done (VObj [("id", VNum 1); ("a", VObj [("x", VNum 99); ("y", VNum 2)])]).
Proof.
  apply (save_then_get
           [[("id", VNum 1); ("a", VObj [("x", VNum 1); ("y", VNum 2)])]]
           [("id", VNum 1); ("a", VObj [("x", VNum 99)])] (VNum 1)).
  - reflexivity.
  - reflexivity.
  - repeat constructor; simpl; intuition discriminate.
  - reflexivity.
Defined.

(** X11: when [update] of a record with an [id] reports success, a [get]
    of that [id] afterwards returns the very document [update] reported. *)
Theorem update_then_get :
  forall table ps id table' doc,
    obj_get ps "id" = Some id ->
    Zone.update table (VObj ps) = Ok (table', Done doc) ->
    Zone.get table' id = Done doc.
Proof.
  intros table ps id table' doc Hid H.
  unfold Zone.update in H. cbn [get_prop prop] in H. rewrite Hid in H.
  cbn [bind] in H. injection H as H. unfold Zone.get.
  eapply findOneAndUpdate_then_findOne; [|exact H].
  now apply obj_get_In.
Qed.

Lemma update_then_get_example :
  Zone.get [[("id", VNum 1); ("a", VObj [("x", VNum 99)])]] (VNum 1)
  = Done (VObj [("id", VNum 1); ("a", VObj [("x", VNum 99)])]).
Proof.
  apply (update_then_get
           [[("id", VNum 1); ("a", VObj [("x", VNum 1); ("y", VNum 2)])]]
           [("id", VNum 1); ("a", VObj [("x", VNum 99)])] (VNum 1));
    reflexivity.
Defined.

Lemma first_match_none_count filter c :
  first_match filter c = None <-> count_matches filter c = 0.
Proof.
  unfold count_matches. induction c as [|e c IH]; simpl; [tauto|].
  destruct (matches filter e); simpl.
  - split; discriminate.
  - destruct (first_match filter c) as [[j dj]|].
    + split; [discriminate|]. intros H. apply IH in H. discriminate.
    + split; [intros _; now apply IH | reflexivity].
Qed.

Lemma count_matches_remove filter c :
  forall i d,
    first_match filter c = Some (i, d) ->
    count_matches filter (remove_nth i c) = pred (count_matches filter c).
Proof.
  unfold count_matches.
  induction c as [|e c IH]; intros i d H; simpl in H; [discriminate|].
  destruct (matches filter e) eqn:Ee.
  - injection H as <- <-. simpl. now rewrite Ee.
  - destruct (first_match filter c) as [[j dj]|] eqn:Ef; [|discriminate].
    injection H as <- <-. simpl. rewrite Ee. now apply (IH j dj).
Qed.

(** X13: [delete] removes the first document with the given [id] and no
    other, replying with it, and removes none, replying [null], when there
    is none; so when at most one document has the [id], a [get] after the
    [delete] returns [null]. *)
Theorem delete_then_get :
  forall table id,
    (forall i d,
        first_match [("id", id)] table = Some (i, d) ->
        nth_error table i = Some d
        /\ Zone.delete table id = (remove_nth i table, Done (VObj d))
        /\ (forall j, j < i ->
                      nth_error (remove_nth i table) j = nth_error table j)
        /\ (forall j, i <= j ->
                      nth_error (remove_nth i table) j = nth_error table (S j)))
    /\ (first_match [("id", id)] table = None ->
        Zone.delete table id = (table, Done VNull))
    /\ (count_matches [("id", id)] table <= 1 ->
        Zone.get (fst (Zone.delete table id)) id = Done VNull).
Proof.
  intros table id.
  assert (Hcount : count_matches [("id", id)] (fst (Zone.delete table id))
                   = pred (count_matches [("id", id)] table)).
  { unfold Zone.delete, findOneAndDelete.
    destruct (first_match [("id", id)] table) as [[i d]|] eqn:Ef; cbn [fst].
    - now apply (count_matches_remove _ _ i d).
    - apply first_match_none_count in Ef. now rewrite Ef. }
  split; [|split].
  - intros i d Hm. split; [now apply first_match_nth in Hm|].
    split; [unfold Zone.delete, findOneAndDelete; now rewrite Hm|].
    clear. split.
    + revert i. induction table as [|e table IH]; intros i j Hj;
        [now destruct i|].
      destruct i as [|i]; [lia|]. destruct j as [|j]; [reflexivity|].
      simpl. apply IH. lia.
    + revert i. induction table as [|e table IH]; intros i j Hj.
      * destruct i; now destruct j.
      * destruct i as [|i]; [reflexivity|]. destruct j as [|j]; [lia|].
        simpl. apply IH. lia.
  - intros Hnone. unfold Zone.delete, findOneAndDelete. now rewrite Hnone.
  - intros Hle. unfold Zone.get, findOne.
    assert (E : first_match [("id", id)] (fst (Zone.delete table id)) = None).
    { apply first_match_none_count. rewrite Hcount. lia. }
    now rewrite E.
Qed.

Lemma delete_then_get_example :
  count_matches [("id", VNum 1)] [[("id", VNum 1)]; [("id", VNum 2)]] <= 1
  /\ Zone.get (fst (Zone.delete [[("id", VNum 1)]; [("id", VNum 2)]] (VNum 1)))
              (VNum 1)
     = Done VNull.
Proof.
  split; [apply le_n|].
  apply (proj2 (proj2 (delete_then_get [[("id", VNum 1)]; [("id", VNum 2)]]
                         (VNum 1)))).
  apply le_n.
Defined.

(* ================================================================== *)
(** * Properties of the history extension *)
(* ================================================================== *)

Import History.

Lemma key_le_total a b : key_le a b = true \/ key_le b a = true.
Proof.
  destruct a, b; simpl; auto.
  destruct (Z.leb_spec z z0); auto. right. apply Z.leb_le. lia.
Qed.

Lemma key_le_trans a b c :
  key_le a b = true -> key_le b c = true -> key_le a c = true.
Proof.
  destruct a, b, c; simpl; auto; try discriminate.
  rewrite !Z.leb_le. lia.
Qed.

Section SortDesc.
Variable field : string.

Lemma insert_desc_perm d l : Permutation (d :: l) (insert_desc field d l).
Proof.
  induction l as [|e l IH]; simpl; [reflexivity|].
  destruct (key_le _ _); [reflexivity|].
  rewrite perm_swap. now constructor.
Qed.

Lemma sort_desc_perm l : Permutation l (sort_desc field l).
Proof.
  induction l as [|d l IH]; simpl; [constructor|].
  rewrite <- insert_desc_perm. now constructor.
Qed.

Lemma insert_desc_sorted d l :
  StronglySorted (above field) l -> StronglySorted (above field) (insert_desc field d l).
Proof.
  induction 1 as [|e l Hl IH He]; simpl.
  - repeat constructor.
  - destruct (key_le (sort_key field e) (sort_key field d)) eqn:E.
    + constructor; [now constructor|].
      constructor; [exact E|].
      rewrite Forall_forall in *. intros x Hx. unfold above in *.
      eapply key_le_trans; [apply He; exact Hx | exact E].
    + constructor; [exact IH|].
      rewrite Forall_forall in *. intros x Hx.
      apply (Permutation_in _ (Permutation_sym (insert_desc_perm d l))) in Hx.
      destruct Hx as [<-|Hx]; [|now apply He].
      unfold above.
      destruct (key_le_total (sort_key field e) (sort_key field d));
        [congruence | assumption].
Qed.

Lemma sort_desc_sorted l : StronglySorted (above field) (sort_desc field l).
Proof.
  induction l as [|d l IH]; simpl; [constructor|].
  now apply insert_desc_sorted.
Qed.
End SortDesc.

Lemma StronglySorted_app {A} (R : A -> A -> Prop) l1 l2 :
  StronglySorted R l1 -> StronglySorted R l2 ->
  (forall x y, In x l1 -> In y l2 -> R x y) ->
  StronglySorted R (l1 ++ l2).
Proof.
  induction 1 as [|a l1 Hl1 IH Ha]; intros H2 Hx; simpl; [exact H2|].
  constructor.
  - apply IH; [exact H2|]. intros x y Hin. apply Hx. now right.
  - apply Forall_app. split; [exact Ha|].
    apply Forall_forall. intros y Hy. apply Hx; [now left | exact Hy].
Qed.

Lemma StronglySorted_rev {A} (R : A -> A -> Prop) l :
  StronglySorted R l -> StronglySorted (fun a b => R b a) (rev l).
Proof.
  induction 1 as [|a l Hl IH Ha]; simpl; [constructor|].
  apply StronglySorted_app; [exact IH | repeat constructor |].
  intros x y Hx [<-|[]]. rewrite Forall_forall in Ha.
  apply Ha. now apply in_rev.
Qed.

Lemma sort_desc_four user m1 m2 m3 m4 (t1 t2 t3 t4 : Z) :
  (t1 < t2)%Z -> (t2 < t3)%Z -> (t3 < t4)%Z ->
  sort_desc "date"
    [entry user m1 t1; entry user m2 t2; entry user m3 t3; entry user m4 t4]
  = [entry user m4 t4; entry user m3 t3; entry user m2 t2; entry user m1 t1].
Proof.
  intros H12 H23 H34.
  assert (E34 : (t4 <=? t3)%Z = false) by (apply Z.leb_gt; lia).
  assert (E23 : (t3 <=? t2)%Z = false) by (apply Z.leb_gt; lia).
  assert (E24 : (t4 <=? t2)%Z = false) by (apply Z.leb_gt; lia).
  assert (E12 : (t2 <=? t1)%Z = false) by (apply Z.leb_gt; lia).
  assert (E13 : (t3 <=? t1)%Z = false) by (apply Z.leb_gt; lia).
  assert (E14 : (t4 <=? t1)%Z = false) by (apply Z.leb_gt; lia).
  cbn. rewrite ?E34, ?E23, ?E24, ?E12, ?E13, ?E14. cbn.
  rewrite ?E34, ?E23, ?E24, ?E12, ?E13, ?E14. cbn.
  rewrite ?E34, ?E23, ?E24, ?E12, ?E13, ?E14. reflexivity.
Qed.

(** C3: for every user and limit, [getHistoryForUser] asks the history
    collection for the entries of that user sorted descending on [date] and
    capped at [limit], and resolves with that result reversed: the entries
    returned are the last [min limit total] of an ascending chronological
    arrangement of all the user's entries.  After inserting entries with
    times [t1 < t2 < t3 < t4], a limit of 2 returns those of [t3] and [t4]
    in that order. *)
Theorem getHistoryForUser_recent_ascending :
  (forall history user limit,
      exists older recent,
        getHistoryForUser history None user limit
        = Resolved (VArr (map VObj recent))
        /\ recent = rev (find_sorted_desc history [("userId", user)] "date" limit)
        /\ Permutation (older ++ recent)
                       (List.filter (matches [("userId", user)]) history)
        /\ StronglySorted date_le (older ++ recent)
        /\ List.length recent
           = Nat.min limit
               (List.length (List.filter (matches [("userId", user)]) history)))
  /\ (forall user m1 m2 m3 m4 t1 t2 t3 t4,
         (t1 < t2)%Z -> (t2 < t3)%Z -> (t3 < t4)%Z ->
         let h1 := fst (addToHistory [] None t1 m1 user) in
         let h2 := fst (addToHistory h1 None t2 m2 user) in
         let h3 := fst (addToHistory h2 None t3 m3 user) in
         let h4 := fst (addToHistory h3 None t4 m4 user) in
         getHistoryForUser h4 None user 2
         = Resolved (VArr [VObj (entry user m3 t3); VObj (entry user m4 t4)])).
Proof.
  split.
  - intros history user limit.
    set (mine := List.filter (matches [("userId", user)]) history).
    set (sorted := sort_desc "date" mine).
    exists (rev (skipn limit sorted)), (rev (firstn limit sorted)).
    split; [|split; [|split; [|split]]].
    + unfold getHistoryForUser, find_with_options, find_sorted_desc.
      cbn [callback_args]. unfold getHistoryForUser_cb.
      cbn [get_prop prop truthy]. fold mine. fold sorted.
      now rewrite map_rev.
    + reflexivity.
    + rewrite <- rev_app_distr, firstn_skipn, <- Permutation_rev.
      symmetry. apply sort_desc_perm.
    + rewrite <- rev_app_distr, firstn_skipn.
      apply (StronglySorted_rev _ _ (sort_desc_sorted "date" mine)).
    + rewrite length_rev, length_firstn. unfold sorted.
      now rewrite <- (Permutation_length (sort_desc_perm "date" mine)).
  - intros user m1 m2 m3 m4 t1 t2 t3 t4 H12 H23 H34. cbn zeta.
    unfold getHistoryForUser, find_with_options, find_sorted_desc.
    cbn [addToHistory Zone.insert Mongo.insert fst app].
    cbn [List.filter matches forallb entry obj_get String.eqb Ascii.eqb
         Bool.eqb fst snd andb].
    rewrite !value_eqb_refl. cbn [andb].
    fold (entry user m1 t1) (entry user m2 t2) (entry user m3 t3)
         (entry user m4 t4).
    rewrite sort_desc_four by assumption. reflexivity.
Qed.

(** C6: when the [find] of the backing store reports an error, the callback
    of [getHistoryForUser] is called without a result; it reads
    [history.length] before it tests [err], so it throws a [TypeError] and
    the promise is never rejected with the backing error. *)
Theorem getHistoryForUser_error_not_rejected :
  forall history user limit err,
    getHistoryForUser history (Some err) user limit
    = CallbackThrew (JsTypeError "Cannot read properties of undefined or null")
    /\ getHistoryForUser history (Some err) user limit <> Rejected err.
Proof.
  intros history user limit err. split; [reflexivity | discriminate].
Qed.

Lemma getHistoryForUser_recent_ascending_example :
  (1 < 2)%Z /\ (2 < 3)%Z /\ (3 < 4)%Z
  /\ getHistoryForUser
       [entry (VStr "U") (VStr "m1") 1; entry (VStr "U") (VStr "m2") 2;
        entry (VStr "U") (VStr "m3") 3; entry (VStr "U") (VStr "m4") 4]
       None (VStr "U") 2
     = Resolved (VArr [VObj (entry (VStr "U") (VStr "m3") 3);
                       VObj (entry (VStr "U") (VStr "m4") 4)]).
Proof.
  split; [reflexivity|]. split; [reflexivity|]. split; [reflexivity|].
  apply (proj2 getHistoryForUser_recent_ascending
           (VStr "U") (VStr "m1") (VStr "m2") (VStr "m3") (VStr "m4")
           1%Z 2%Z 3%Z 4%Z); reflexivity.
Defined.


(* ================================================================== *)
(** * Further properties of the history extension *)
(* ================================================================== *)

Lemma sort_desc_newest field e l :
  (forall x, In x l -> key_le (sort_key field e) (sort_key field x) = false) ->
  sort_desc field (l ++ [e]) = e :: sort_desc field l.
Proof.
  induction l as [|x l IH]; intros H; [reflexivity|].
  simpl. rewrite IH by (intros y Hy; apply H; now right).
  simpl. rewrite (H x (or_introl eq_refl)). reflexivity.
Qed.

Lemma matches_own_entry user message now :
  matches [("userId", user)] (entry user message now) = true.
Proof. unfold matches. simpl. now rewrite value_eqb_refl. Qed.

Lemma getHistoryForUser_resolves history user limit :
  getHistoryForUser history None user limit
  = Resolved
      (VArr (map VObj
               (rev (find_sorted_desc history [("userId", user)] "date" limit)))).
Proof.
  unfold getHistoryForUser, find_with_options. cbn [callback_args].
  unfold getHistoryForUser_cb. cbn [get_prop prop truthy].
  now rewrite map_rev.
Qed.

(** X15: when the insert fails, [addToHistory] rejects with the error of
    the backing store and nothing is stored; when it succeeds,
    [addToHistory] resolves with the entry it made, time included, and
    exactly that entry is stored; if then that time is later than the dates
    of all the stored entries of the user, the history of the user read
    with limit [n + 1] afterwards is the one read with limit [n] before,
    followed by the new entry. *)
Theorem addToHistory_then_getHistoryForUser :
  forall history user message now,
    (forall err,
        truthy err = true ->
        addToHistory history (Some err) now message user
        = (history, Rejected err))
    /\ addToHistory history None now message user
       = ((history ++ [entry user message now])%list,
          Resolved (VObj (entry user message now)))
    /\ ((forall d, In d history ->
                   matches [("userId", user)] d = true ->
                   key_le (Some now) (sort_key "date" d) = false) ->
        forall n,
          getHistoryForUser (fst (addToHistory history None now message user))
                            None user (S n)
          = Resolved
              (VArr (map VObj
                       (rev (find_sorted_desc history [("userId", user)]
                               "date" n)
                          ++ [entry user message now])%list))
          /\ getHistoryForUser history None user n
             = Resolved
                 (VArr (map VObj
                          (rev (find_sorted_desc history [("userId", user)]
                                  "date" n))))).
Proof.
  intros history user message now. split; [|split].
  - intros err Herr. unfold addToHistory, addToHistory_cb.
    cbn [Zone.insert Mongo.insert callback_args fst]. now rewrite Herr.
  - reflexivity.
  - intros Hlate n. split; [|apply getHistoryForUser_resolves].
    rewrite getHistoryForUser_resolves. do 3 f_equal.
    cbn [addToHistory Zone.insert Mongo.insert fst]. unfold find_sorted_desc.
    pose proof (filter_app (matches [("userId", user)]) history
                  [entry user message now]) as E.
    unfold doc, collection, object in *. rewrite E. clear E.
    cbn [List.filter]. rewrite matches_own_entry.
    rewrite sort_desc_newest.
    + reflexivity.
    + intros x Hx. apply filter_In in Hx. destruct Hx as [Hin Hm].
      exact (Hlate x Hin Hm).
Qed.

Lemma addToHistory_then_getHistoryForUser_example :
  getHistoryForUser
    (fst (addToHistory [entry (VStr "U") (VStr "m1") 1;
                        entry (VStr "V") (VStr "m2") 7;
                        entry (VStr "U") (VStr "m0") 3]
            None 5 (VStr "m3") (VStr "U")))
    None (VStr "U") 2
  = Resolved (VArr [VObj (entry (VStr "U") (VStr "m0") 3);
                    VObj (entry (VStr "U") (VStr "m3") 5)]).
Proof.
  refine (proj1 (proj2 (proj2 (addToHistory_then_getHistoryForUser
                                 [entry (VStr "U") (VStr "m1") 1;
                                  entry (VStr "V") (VStr "m2") 7;
                                  entry (VStr "U") (VStr "m0") 3]
                                 (VStr "U") (VStr "m3") 5)) _ 1)).
  intros d [<-|[<-|[<-|[]]]]; [reflexivity | discriminate | reflexivity].
Defined.

(** X16: what is added to the history of one user never shows in the
    history of another: [getHistoryForUser] of a user gives the same after
    an [addToHistory] for a different user as before, whether the insert
    and the query succeed or fail. *)
Theorem addToHistory_of_other_user :
  forall history insert_fault fault user other message now limit,
    value_eqb user other = false ->
    getHistoryForUser
      (fst (addToHistory history insert_fault now message other))
      fault user limit
    = getHistoryForUser history fault user limit.
Proof.
  intros history insert_fault fault user other message now limit Hne.
  unfold getHistoryForUser, find_with_options, find_sorted_desc.
  destruct fault; [reflexivity|].
  destruct insert_fault; [reflexivity|].
  cbn [addToHistory Zone.insert Mongo.insert fst].
  pose proof (filter_app (matches [("userId", user)]) history
                [entry other message now]) as E.
  unfold doc, collection, object in *. rewrite E. clear E.
  cbn [List.filter]. unfold matches at 2. simpl. rewrite Hne. simpl.
  now rewrite List.app_nil_r.
Qed.

Lemma addToHistory_of_other_user_example :
  getHistoryForUser
    (fst (addToHistory [entry (VStr "U") (VStr "m1") 1] None 2 (VStr "m2")
            (VStr "V")))
    None (VStr "U") 5
  = getHistoryForUser [entry (VStr "U") (VStr "m1") 1] None (VStr "U") 5.
Proof.
  apply addToHistory_of_other_user. reflexivity.
Defined.

(* ================================================================== *)
(** * Properties of the factory *)
(* ================================================================== *)

Import Factory.

Lemma storage_get_replace_same st z s x :
  storage_get st z = Some x -> storage_get (storage_replace st z s) z = Some s.
Proof.
  induction st as [|[z' s'] st IH]; simpl; [discriminate|].
  destruct (z' =? z) eqn:E; simpl.
  - now rewrite String.eqb_refl.
  - now rewrite E.
Qed.

Lemma storage_get_replace_other st z z' s :
  z <> z' -> storage_get (storage_replace st z s) z' = storage_get st z'.
Proof.
  intros Hne. induction st as [|[z0 s0] st IH]; simpl; [reflexivity|].
  destruct (z0 =? z) eqn:E; simpl.
  - apply String.eqb_eq in E. subst z0.
    apply String.eqb_neq in Hne. now rewrite Hne.
  - now rewrite IH.
Qed.

Lemma storage_get_add_same st z s :
  storage_get st z = None -> storage_get (storage_add st z s) z = Some s.
Proof.
  induction st as [|[z' s'] st IH]; simpl.
  - now rewrite String.eqb_refl.
  - destruct (z' =? z) eqn:E; [discriminate|]. intros H.
    destruct (index_before z z'); simpl.
    + now rewrite String.eqb_refl.
    + rewrite E. now apply IH.
Qed.

Lemma storage_get_add_other st z z' s :
  z <> z' -> storage_get (storage_add st z s) z' = storage_get st z'.
Proof.
  intros Hne. apply String.eqb_neq in Hne.
  induction st as [|[z0 s0] st IH]; simpl.
  - now rewrite Hne.
  - destruct (index_before z z0); simpl.
    + now rewrite Hne.
    + now rewrite IH.
Qed.

Lemma storage_get_set_same st z s :
  z <> "__proto__" -> storage_get (storage_set st z s) z = Some s.
Proof.
  intros Hz. unfold storage_set. apply String.eqb_neq in Hz. rewrite Hz.
  destruct (storage_get st z) eqn:E.
  - eapply storage_get_replace_same; eauto.
  - now apply storage_get_add_same.
Qed.

Lemma storage_get_set_other st z z' s :
  z <> z' -> storage_get (storage_set st z s) z' = storage_get st z'.
Proof.
  intros Hne. unfold storage_set.
  destruct (z =? "__proto__"); [reflexivity|].
  destruct (storage_get st z).
  - now apply storage_get_replace_other.
  - now apply storage_get_add_other.
Qed.

(** The name [__proto__] never becomes an own property. *)
Lemma storage_get_set_proto st z s :
  storage_get (storage_set st z s) "__proto__" = storage_get st "__proto__".
Proof.
  destruct (string_dec z "__proto__") as [->|Hne].
  - reflexivity.
  - now apply storage_get_set_other.
Qed.

(** Every zone of the list but [__proto__] gets its store. *)
Lemma zones_get_their_store tables :
  forall st z,
    z <> "__proto__" ->
    In z tables \/ storage_get st z = Some (getStorage z) ->
    storage_get
      (fold_left (fun st zone => storage_set st zone (getStorage zone)) tables st)
      z
    = Some (getStorage z).
Proof.
  induction tables as [|t tables IH]; intros st z Hz H; simpl.
  - destruct H as [[]|H]; exact H.
  - apply IH; [exact Hz|]. destruct H as [[->|H]|H]; auto.
    + right. now apply storage_get_set_same.
    + right. destruct (string_dec t z) as [->|Hne].
      * now apply storage_get_set_same.
      * now rewrite storage_get_set_other.
Qed.

Lemma zones_absent tables :
  forall st z,
    z = "__proto__" \/ ~ In z tables ->
    storage_get
      (fold_left (fun st zone => storage_set st zone (getStorage zone)) tables st)
      z
    = storage_get st z.
Proof.
  induction tables as [|t tables IH]; intros st z H; simpl; [reflexivity|].
  rewrite IH by (simpl in H; tauto).
  destruct H as [->|H]; [apply storage_get_set_proto|].
  apply storage_get_set_other. simpl in H. tauto.
Qed.

Lemma push_table_keeps l :
  forall tables z, In z tables -> In z (fold_left push_table l tables).
Proof.
  induction l as [|x l IH]; intros tables z H; simpl; [exact H|].
  apply IH. destruct x; simpl; auto. apply in_or_app. now left.
Qed.

Lemma add_tables_keeps_history extra tables :
  add_tables default_tables extra = Ok tables -> In "history" tables.
Proof.
  unfold add_tables. destruct (truthy extra).
  - destruct extra; try discriminate;
      try (destruct (forEach_of _); discriminate).
    intros [= <-]. apply push_table_keeps. simpl. tauto.
  - intros [= <-]. simpl. tauto.
Qed.

Lemma fold_push_table l :
  forall tables,
    fold_left push_table l tables = (tables ++ string_entries l)%list.
Proof.
  induction l as [|x l IH]; intros tables; simpl.
  - now rewrite List.app_nil_r.
  - destruct x; simpl; rewrite IH; try reflexivity.
    now rewrite <- List.app_assoc.
Qed.

Lemma in_string_entries l z : In z (string_entries l) <-> In (VStr z) l.
Proof.
  induction l as [|x l IH]; simpl; [tauto|].
  destruct x; simpl; rewrite IH; try (intuition discriminate).
  split; intros [H|H]; auto; left; congruence.
Qed.

(** The configurations past the first check, with the entries [forEach]
    walks over. *)
Lemma factory_builds config l :
  truthy config = true ->
  truthy (prop config "mongoUri") = true ->
  prop config "tables" = VArr l
  \/ (truthy (prop config "tables") = false /\ l = []) ->
  factory config
  = ((Connect (prop config "mongoUri") (prop config "mongoOptions")
        :: map DbGet (default_tables ++ string_entries l))%list,
     Ok (storage_set
           (fold_left (fun st zone => storage_set st zone (getStorage zone))
              (default_tables ++ string_entries l)%list [])
           "history"
           {| zone_name := "history"; history_methods := true |})).
Proof.
  intros Hc Hu Ht. unfold factory. rewrite Hc, Hu. cbn [negb orb].
  assert (E : add_tables default_tables (prop config "tables")
              = Ok (default_tables ++ string_entries l)%list).
  { unfold add_tables. destruct Ht as [->|[-> ->]].
    - cbn [truthy]. now rewrite fold_push_table.
    - simpl. reflexivity. }
  rewrite E.
  rewrite (zones_get_their_store _ [] "history")
    by (try discriminate; left; apply in_or_app; left; simpl; tauto).
  reflexivity.
Qed.

(** C9: for every configuration that is absent or lacks a [mongoUri]
    property, the factory throws its error at once: nothing is connected,
    no zone store is constructed, no storage object is returned. *)
Theorem factory_needs_mongoUri :
  forall config,
    config = VUndef \/ config = VNull \/ prop config "mongoUri" = VUndef ->
    factory config = ([], Throw need_address).
Proof.
  intros config [->|[->|H]]; try reflexivity.
  unfold factory. rewrite H. cbn [truthy negb]. now rewrite orb_true_r.
Qed.

Lemma factory_needs_mongoUri_example :
  prop (VObj [("mongoOptions", VObj [])]) "mongoUri" = VUndef
  /\ factory (VObj [("mongoOptions", VObj [])]) = ([], Throw need_address).
Proof.
  split; [reflexivity|].
  apply factory_needs_mongoUri. right. right. reflexivity.
Defined.

(** C10, as the claim has it, fails: a configuration with a [mongoUri] and
    the string ['abc'] as [tables] is past the check of the address, yet
    [config.tables.forEach] is no function, so the factory throws a
    [TypeError] once connected and the [history] zone store is never
    made. *)
Lemma factory_string_tables_makes_no_history :
  factory (VObj [("mongoUri", VStr "localhost/mydb"); ("tables", VStr "abc")])
  = ([Connect (VStr "localhost/mydb") VUndef], Throw not_iterable)
  /\ ~ In (DbGet "history")
          (fst (factory (VObj [("mongoUri", VStr "localhost/mydb");
                               ("tables", VStr "abc")]))).
Proof.
  split; [reflexivity|]. simpl. intros [H|[]]. discriminate H.
Qed.

(** C10, amended: construction never fails with the 'Unable to add history
    support' error, unless [tables] is an object that brings a [forEach]
    function along: that function is then called and the run is up to it
    (it ends as [Beyond] here, and in no other case).  Whenever the factory
    returns a storage object, that object holds the [history] zone store,
    asked for from the database under the default name and carrying the
    history methods.  For every configuration with a [mongoUri] the storage
    object is returned when [tables] is absent, falsy or an array, of any
    values; when [tables] is a truthy value that is no array and has no
    [forEach] to call, the factory throws a [TypeError] once connected,
    before any zone store is made. *)
Theorem factory_history_store :
  (forall config,
      snd (factory config) <> Throw no_history
      /\ (snd (factory config) = Beyond ->
          forEach_of (prop config "tables") = UnknownForEach))
  /\ (forall config st,
         snd (factory config) = Ok st ->
         storage_get st "history"
         = Some {| zone_name := "history"; history_methods := true |}
         /\ In (DbGet "history") (fst (factory config)))
  /\ (forall config,
         truthy config = true ->
         truthy (prop config "mongoUri") = true ->
         (truthy (prop config "tables") = false
          \/ (exists l, prop config "tables" = VArr l) ->
          exists st, snd (factory config) = Ok st)
         /\ (truthy (prop config "tables") = true ->
             (forall l, prop config "tables" <> VArr l) ->
             forEach_of (prop config "tables") = NoForEach ->
             factory config
             = ([Connect (prop config "mongoUri") (prop config "mongoOptions")],
                Throw not_iterable))).
Proof.
  split; [|split].
  - intros config. unfold factory.
    destruct (negb (truthy config) || negb (truthy (prop config "mongoUri")));
      [split; discriminate|].
    destruct (add_tables default_tables (prop config "tables"))
      as [tables|e|] eqn:E.
    + apply add_tables_keeps_history in E. cbn [snd].
      rewrite (zones_get_their_store tables [] "history")
        by (try discriminate; now left).
      split; discriminate.
    + split; [|discriminate].
      unfold add_tables in E. destruct (truthy _); [|discriminate].
      destruct (prop config "tables"); try discriminate;
        try (destruct (forEach_of _); try discriminate);
        injection E as <-; discriminate.
    + split; [discriminate|]. intros _.
      unfold add_tables in E. destruct (truthy _); [|discriminate].
      destruct (prop config "tables"); try discriminate;
        destruct (forEach_of _); try discriminate; reflexivity.
  - intros config st. unfold factory.
    destruct (negb (truthy config) || negb (truthy (prop config "mongoUri")));
      [discriminate|].
    destruct (add_tables default_tables (prop config "tables"))
      as [tables|e|] eqn:E; try discriminate.
    apply add_tables_keeps_history in E. cbn [fst snd].
    rewrite (zones_get_their_store tables [] "history")
      by (try discriminate; now left).
    intros [= <-]. split.
    + now apply storage_get_set_same.
    + right. now apply in_map.
  - intros config Hc Hu. split.
    + intros Ht.
      assert (E : exists l,
                 prop config "tables" = VArr l
                 \/ (truthy (prop config "tables") = false /\ l = [])).
      { destruct Ht as [Ht|[l Ht]]; [exists []; now right | exists l; now left]. }
      destruct E as [l E]. rewrite (factory_builds config l Hc Hu E).
      cbn [snd]. eexists. reflexivity.
    + intros Ht Hna Hfe. unfold factory, add_tables.
      rewrite Hc, Hu, Ht, Hfe. cbn [negb orb].
      destruct (prop config "tables"); try reflexivity.
      now elim (Hna elems).
Qed.

Lemma factory_history_store_example :
  exists st,
    snd (factory (VObj [("mongoUri", VStr "localhost/mydb");
                        ("tables", VArr [VStr "notes"; VNum 7])]))
    = Ok st
    /\ storage_get st "history"
       = Some {| zone_name := "history"; history_methods := true |}
    /\ In (DbGet "history")
          (fst (factory (VObj [("mongoUri", VStr "localhost/mydb");
                               ("tables", VArr [VStr "notes"; VNum 7])]))).
Proof.
  destruct (proj1 (proj2 (proj2 factory_history_store)
                     (VObj [("mongoUri", VStr "localhost/mydb");
                            ("tables", VArr [VStr "notes"; VNum 7])])
                     eq_refl eq_refl)
              (or_intror (ex_intro _ [VStr "notes"; VNum 7] eq_refl)))
    as [st Hst].
  exists st. split; [exact Hst|].
  exact (proj1 (proj2 factory_history_store) _ st Hst).
Defined.

(* ================================================================== *)
(** * Further properties of the factory *)
(* ================================================================== *)

(** X17: the storage object has a zone store for exactly the four default
    zones and the string entries of [config.tables] other than
    [__proto__], entries that are no strings being ignored; each store is
    bound to the collection of its own name, and only the [history] store
    carries the history methods.  An entry [__proto__] leaves no property
    of its own. *)
Theorem factory_zones :
  forall config l,
    truthy config = true ->
    truthy (prop config "mongoUri") = true ->
    prop config "tables" = VArr l
    \/ (truthy (prop config "tables") = false /\ l = []) ->
    exists st,
      snd (factory config) = Ok st
      /\ forall z,
          (z <> "__proto__" ->
           In z default_tables \/ In (VStr z) l ->
           storage_get st z
           = Some {| zone_name := z; history_methods := (z =? "history") |})
          /\ (z = "__proto__"
              \/ ~ (In z default_tables \/ In (VStr z) l) ->
              storage_get st z = None).
Proof.
  intros config l Hc Hu Ht. rewrite (factory_builds config l Hc Hu Ht).
  eexists. split; [reflexivity|]. intros z.
  assert (Hin : In z (default_tables ++ string_entries l)%list
                <-> In z default_tables \/ In (VStr z) l).
  { rewrite in_app_iff, in_string_entries. tauto. }
  destruct (string_dec "history" z) as [<-|Hne].
  - split; [intros _ _; now apply storage_get_set_same|].
    intros [H|H]; [discriminate H|]. elim H. left. simpl. tauto.
  - rewrite storage_get_set_other by exact Hne.
    assert (Eb : (z =? "history") = false).
    { apply String.eqb_neq. congruence. }
    rewrite Eb. split.
    + intros Hz H. apply zones_get_their_store; [exact Hz|]. left.
      now apply Hin.
    + intros H. rewrite zones_absent; [reflexivity|].
      rewrite Hin. exact H.
Qed.

Lemma factory_zones_example :
  exists st,
    snd (factory (VObj [("mongoUri", VStr "localhost/mydb");
                        ("tables",
                         VArr [VStr "notes"; VNum 7; VStr "__proto__"])]))
    = Ok st
    /\ storage_get st "notes"
       = Some {| zone_name := "notes"; history_methods := false |}
    /\ storage_get st "__proto__" = None.
Proof.
  destruct (factory_zones
              (VObj [("mongoUri", VStr "localhost/mydb");
                     ("tables",
                      VArr [VStr "notes"; VNum 7; VStr "__proto__"])])
              [VStr "notes"; VNum 7; VStr "__proto__"]
              eq_refl eq_refl (or_introl eq_refl))
    as [st [Hst Hz]].
  exists st. split; [exact Hst|]. split.
  - apply (proj1 (Hz "notes")); [discriminate|]. right. now left.
  - apply (proj2 (Hz "__proto__")). now left.
Defined.

(** X18: the factory throws its 'Need to provide mongo address.' error
    without having done anything exactly when the configuration or its
    [mongoUri] is falsy: also for a [mongoUri] that is present but empty,
    zero, [false] or [null]. *)
Theorem factory_rejects_iff :
  forall config,
    factory config = ([], Throw need_address)
    <-> (truthy config = false \/ truthy (prop config "mongoUri") = false).
Proof.
  intros config. unfold factory.
  destruct (truthy config); cbn [negb orb].
  - destruct (truthy (prop config "mongoUri")); cbn [negb].
    + split; [|intros [H|H]; discriminate].
      destruct (add_tables _ _); discriminate.
    + split; auto.
  - split; auto.
Qed.

(** X19: a configuration with a [mongoUri] makes the factory connect first,
    with [mongoUri] and [mongoOptions] as they are given, then ask the
    database for one collection per zone, the defaults and then the string
    entries of [tables] in order, repeated names included; a [tables] that
    is a non-empty string, a number other than zero, [true], a function, or
    an object with no [forEach] of its own that is a function (a plain
    object in any case, another object when it has such a property) makes
    it throw a [TypeError] after the connection has been made and before
    any collection is asked for. *)
Theorem factory_effects :
  forall config,
    truthy config = true ->
    truthy (prop config "mongoUri") = true ->
    (forall l,
        prop config "tables" = VArr l
        \/ (truthy (prop config "tables") = false /\ l = []) ->
        fst (factory config)
        = (Connect (prop config "mongoUri") (prop config "mongoOptions")
             :: map DbGet (default_tables ++ string_entries l))%list)
    /\ (truthy (prop config "tables") = true ->
        primitive (prop config "tables") = true
        \/ prop config "tables" = VFun
        \/ (exists o, prop config "tables" = VObj o
                      /\ obj_get o "forEach" <> Some VFun)
        \/ (exists c o x, prop config "tables" = VInst c o
                          /\ obj_get o "forEach" = Some x /\ x <> VFun) ->
        factory config
        = ([Connect (prop config "mongoUri") (prop config "mongoOptions")],
           Throw not_iterable)).
Proof.
  intros config Hc Hu. split.
  - intros l Ht. now rewrite (factory_builds config l Hc Hu Ht).
  - intros Ht Hna. unfold factory, add_tables. rewrite Hc, Hu, Ht.
    cbn [negb orb].
    destruct Hna as [H|[H|[[o [H Ho]]|[c [o [x [H [Ho Hx]]]]]]]].
    + destruct (prop config "tables"); try discriminate; reflexivity.
    + rewrite H. reflexivity.
    + rewrite H. unfold forEach_of.
      destruct (obj_get o "forEach") as [[]|]; try reflexivity.
      now elim Ho.
    + rewrite H. unfold forEach_of. rewrite Ho.
      destruct x; try reflexivity. now elim Hx.
Qed.

Lemma factory_effects_example :
  fst (factory (VObj [("mongoUri", VStr "localhost/mydb");
                      ("tables", VArr [VStr "users"; VNum 7])]))
  = [Connect (VStr "localhost/mydb") VUndef;
     DbGet "teams"; DbGet "channels"; DbGet "users"; DbGet "history";
     DbGet "users"]
  /\ factory (VObj [("mongoUri", VStr "localhost/mydb");
                    ("tables", VObj [("forEach", VNum 1)])])
     = ([Connect (VStr "localhost/mydb") VUndef], Throw not_iterable).
Proof.
  split.
  - apply (proj1 (factory_effects
                    (VObj [("mongoUri", VStr "localhost/mydb");
                           ("tables", VArr [VStr "users"; VNum 7])])
                    eq_refl eq_refl)
             [VStr "users"; VNum 7]).
    left. reflexivity.
  - apply (proj2 (factory_effects
                    (VObj [("mongoUri", VStr "localhost/mydb");
                           ("tables", VObj [("forEach", VNum 1)])])
                    eq_refl eq_refl)); [reflexivity|].
    right. right. left. eexists. split; [reflexivity|]. discriminate.
Defined.

Lemma factory_rejects_iff_example :
  truthy (prop (VObj [("mongoUri", VStr "")]) "mongoUri") = false
  /\ factory (VObj [("mongoUri", VStr "")]) = ([], Throw need_address).
Proof.
  split; [reflexivity|].
  apply (proj2 (factory_rejects_iff (VObj [("mongoUri", VStr "")]))).
  right. reflexivity.
Defined.
